(** * BitFieldEmitter: a bit-indexed event emitter

    Shallow embedding of [packages/bits/src/classes/BitFieldEmitter.ts]
    and the properties of its subscribe / unsubscribe / one-shot / publish
    operations.

    - JavaScript numbers used as event codes are integers ([Z]); the
      operators [&] and [<<] go through [ToInt32] and mask the shift count
      with 31, as ECMAScript prescribes.
    - A [Set] of handlers is its list of entries in insertion order, where
      a deleted entry leaves an empty cell behind (ECMAScript's [SetData]):
      this is what makes iteration with [for .. of] live under deletion.
    - [this.handlers] is a list of such sets; reading a slot past its end
      yields [undefined], and calling a method on it raises a [TypeError].
    - Methods thread the emitter explicitly and return a completion
      (normal or thrown); a throw keeps the mutations made so far. *)

From stdpp Require Import base numbers list option.

Local Open Scope Z_scope.

(** ** Integer operators of the source language *)

Module JS.

Definition ToInt32 (x : Z) : Z := (x + 2 ^ 31) mod 2 ^ 32 - 2 ^ 31.

(** [a << n] *)
Definition shl (a n : Z) : Z := ToInt32 (Z.shiftl (ToInt32 a) (n mod 32)).

(** [a & b] *)
Definition and (a b : Z) : Z := Z.land (ToInt32 a) (ToInt32 b).

(** [a | b] *)
Definition or (a b : Z) : Z := Z.lor (ToInt32 a) (ToInt32 b).

(** Truthiness of a number in a condition. *)
Definition truthy (x : Z) : bool := negb (x =? 0).

End JS.

(** The test [code & (1 << i)] of [on] and [emit]. *)
Definition bit_set (code : Z) (i : nat) : bool :=
  JS.truthy (JS.and code (JS.shl 1 (Z.of_nat i))).

(** ** Handlers

    Handlers are compared by reference.  A client function is identified
    by [fn_id]; its body is opaque, and what the emitter sees of a call is
    whether it returns or throws ([fn_throws]).  Client functions that call
    back into the emitter while they run are outside this model.  The
    closure [onceHandler] built by [once] is identified by the allocation
    number [closure]; it captures the wrapped function and the
    [maxBitsHint] of the [once] call.  That closure never escapes [once],
    so what it wraps is always a client function. *)

Record client_fn := ClientFn { fn_id : nat; fn_throws : bool }.

Inductive handler :=
| Fn (f : client_fn)
| OnceHandler (closure : nat) (inner : client_fn) (maxBitsHint : Z).

#[global] Instance client_fn_eq_dec : EqDecision client_fn.
Proof. solve_decision. Defined.

#[global] Instance handler_eq_dec : EqDecision handler.
Proof. solve_decision. Defined.

Inductive exn :=
| TypeError
| RangeError
| Raised (f : client_fn).

Inductive completion :=
| Normal
| Throw (e : exn).

(** The client function a handler ends up running. *)
Definition target (h : handler) : client_fn :=
  match h with
  | Fn f => f
  | OnceHandler _ f _ => f
  end.

(** ** Sets of handlers *)

Abbreviation hset := (list (option handler)).

Module HSet.

Definition has (h : handler) (s : hset) : bool := bool_decide (Some h ∈ s).

Definition add (h : handler) (s : hset) : hset :=
  if has h s then s else s ++ [Some h].

Definition delete (h : handler) (s : hset) : hset :=
  (fun e => if decide (e = Some h) then None else e) <$> s.

(** The handlers [values()] yields on an unchanging set. *)
Definition values (s : hset) : list handler := omap id s.

End HSet.

Local Close Scope Z_scope.

(** ** Closed forms of the loops over the table *)

(** [f j] applied to every slot [j] of [tbl] with [lo <= j < hi]. *)
Definition update_range (f : nat -> hset -> hset) (lo hi : nat) (tbl : list hset)
  : list hset :=
  imap (fun j s => if bool_decide (lo <= j < hi) then f j s else s) tbl.

(** Some index [j] among the [n] from [bit] on lies past a table of [len]
    slots and is one the loop reads ([p j]). *)
Definition past_end (p : nat -> bool) (len bit n : nat) : bool :=
  existsb (fun j => bool_decide (len <= j) && p j) (seq bit n).

Definition thrown_if (b : bool) : completion :=
  if b then Throw TypeError else Normal.

Definition on_slot (code : Z) (h : handler) (j : nat) (s : hset) : hset :=
  if bit_set code j then HSet.add h s else s.

Definition delete_all (hs : list handler) (s : hset) : hset :=
  foldl (fun s h => HSet.delete h s) s hs.

(** ** Iterables

    An [Iterable] is known to [for .. of] only through what each walk over
    it yields: [it k] is what the [k]-th walk from now on gets.  An array
    or a [Set] hands out a fresh iterator at every walk and yields its
    elements every time ([collection]); a generator or an iterator such as
    [set.values()] hands out itself, yields its elements on the first walk
    and nothing afterwards ([single_pass]).  A walk is finite and does not
    touch the emitter. *)

Definition iterable (A : Type) : Type := nat -> list A.

Definition collection {A} (xs : list A) : iterable A := fun _ => xs.

Definition single_pass {A} (xs : list A) : iterable A :=
  fun k => match k with O => xs | S _ => [] end.

(** One [for .. of]: what it yields, and the iterable as later walks
    find it. *)
Definition walk {A} (it : iterable A) : list A * iterable A :=
  (it O, fun k => it (S k)).

Section Emitter.

Context {T : Type}.

(** What the handlers were called with: [Dispatch] is the call
    [handler(data, code)] made by [emit], [Forward] the call
    [handler(...args)] made by a [onceHandler]. *)
Inductive event :=
| Dispatch (h : handler) (data : T) (code : Z)
| Forward (a : handler) (f : client_fn) (data : T) (code : Z).

(** The emitter, together with the number of closures allocated so far
    and the calls observed so far. *)
Record BitFieldEmitter := Emitter {
  maxBits : Z;
  handlers : list hset;
  closures : nat;
  calls : list event
}.

Definition with_handlers (e : BitFieldEmitter) (tbl : list hset) :=
  Emitter (maxBits e) tbl (closures e) (calls e).

Definition log (ev : event) (e : BitFieldEmitter) :=
  Emitter (maxBits e) (handlers e) (closures e) (calls e ++ [ev]).

(** [new BitFieldEmitter(maxBits)]; [Array(n)] raises a [RangeError]
    unless [n] is an array length. *)
Definition new (maxBits : Z) : BitFieldEmitter + exn :=
  if bool_decide (0 ≤ maxBits < 2 ^ 32)%Z
  then inl (Emitter maxBits (replicate (Z.to_nat maxBits) []) 0 [])
  else inr RangeError.

(** A parameter [maxBitsHint = this.maxBits]. *)
Definition hint_or_default (hint : option Z) (e : BitFieldEmitter) : Z :=
  default (maxBits e) hint.

(** *** on *)

Fixpoint on_loop (n i : nat) (code : Z) (h : handler) (tbl : list hset)
  : list hset * completion :=
  match n with
  | O => (tbl, Normal)
  | S n' =>
      if bit_set code i then
        match tbl !! i with
        | Some s => on_loop n' (S i) code h (<[i := HSet.add h s]> tbl)
        | None => (tbl, Throw TypeError)
        end
      else on_loop n' (S i) code h tbl
  end.

Definition on (code : Z) (h : handler) (hint : option Z) (e : BitFieldEmitter)
  : BitFieldEmitter * completion :=
  let r := on_loop (Z.to_nat (hint_or_default hint e)) 0 code h (handlers e) in
  (with_handlers e r.1, r.2).

(** *** remove *)

Fixpoint remove_loop (n bit : nat) (h : handler) (tbl : list hset)
  : list hset * completion :=
  match n with
  | O => (tbl, Normal)
  | S n' =>
      match tbl !! bit with
      | Some s => remove_loop n' (S bit) h (<[bit := HSet.delete h s]> tbl)
      | None => (tbl, Throw TypeError)
      end
  end.

Definition remove (h : handler) (hint : option Z) (e : BitFieldEmitter)
  : BitFieldEmitter * completion :=
  let r := remove_loop (Z.to_nat (hint_or_default hint e)) 0 h (handlers e) in
  (with_handlers e r.1, r.2).

(** *** removeGroup

    [removeGroup_slot] is the inner [for .. of] over what one walk yields,
    [removeGroup_loop] the loop over the bits, with a new walk over
    [handlers] at every bit. *)

Fixpoint removeGroup_slot (hs : list handler) (bit : nat) (tbl : list hset)
  : list hset * completion :=
  match hs with
  | [] => (tbl, Normal)
  | h :: hs' =>
      match tbl !! bit with
      | Some s => removeGroup_slot hs' bit (<[bit := HSet.delete h s]> tbl)
      | None => (tbl, Throw TypeError)
      end
  end.

Fixpoint removeGroup_loop (n bit : nat) (handlers : iterable handler)
  (tbl : list hset) : list hset * completion :=
  match n with
  | O => (tbl, Normal)
  | S n' =>
      let (hs, handlers') := walk handlers in
      match removeGroup_slot hs bit tbl with
      | (tbl', Normal) => removeGroup_loop n' (S bit) handlers' tbl'
      | r => r
      end
  end.

Definition removeGroup (hs : iterable handler) (hint : option Z)
  (e : BitFieldEmitter) : BitFieldEmitter * completion :=
  let r := removeGroup_loop (Z.to_nat (hint_or_default hint e)) 0 hs (handlers e) in
  (with_handlers e r.1, r.2).

(** *** once *)

Definition once (code : Z) (f : client_fn) (hint : option Z)
  (e : BitFieldEmitter) : BitFieldEmitter * completion :=
  let maxBitsHint := hint_or_default hint e in
  let onceHandler := OnceHandler (closures e) f maxBitsHint in
  on code onceHandler (Some maxBitsHint)
     (Emitter (maxBits e) (handlers e) (S (closures e)) (calls e)).

(** *** Calling a handler *)

Definition invoke (h : handler) (data : T) (code : Z) (e : BitFieldEmitter)
  : BitFieldEmitter * completion :=
  match h with
  | Fn f => (e, if fn_throws f then Throw (Raised f) else Normal)
  | OnceHandler _ f maxBitsHint =>
      let e1 := log (Forward h f data code) e in
      if fn_throws f then (e1, Throw (Raised f))
      else remove h (Some maxBitsHint) e1
  end.

(** *** emit

    The inner loop walks the entries of [this.handlers[bit]] by index and
    reads each one from the current emitter, so deletions made by the
    handlers it calls are seen.  Its bound is the number of entries on
    entry: no handler of this model appends to a set
    (see [invoke_shape]). *)

Fixpoint emit_slot (n idx bit : nat) (code : Z) (data : T)
  (called : list handler) (e : BitFieldEmitter)
  : BitFieldEmitter * list handler * completion :=
  match n with
  | O => (e, called, Normal)
  | S n' =>
      match handlers e !! bit ≫= (.!! idx) with
      | Some (Some h) =>
          if decide (h ∈ called) then emit_slot n' (S idx) bit code data called e
          else
            match invoke h data code (log (Dispatch h data code) e) with
            | (e', Normal) => emit_slot n' (S idx) bit code data (h :: called) e'
            | (e', Throw x) => (e', called, Throw x)
            end
      | _ => emit_slot n' (S idx) bit code data called e
      end
  end.

Fixpoint emit_loop (n bit : nat) (code : Z) (data : T)
  (called : list handler) (e : BitFieldEmitter)
  : BitFieldEmitter * completion :=
  match n with
  | O => (e, Normal)
  | S n' =>
      if bit_set code bit then
        match handlers e !! bit with
        | Some s =>
            match emit_slot (length s) 0 bit code data called e with
            | (e', called', Normal) => emit_loop n' (S bit) code data called' e'
            | (e', _, Throw x) => (e', Throw x)
            end
        | None => (e, Throw TypeError)
        end
      else emit_loop n' (S bit) code data called e
  end.

Definition emit (code : Z) (data : T) (hint : option Z) (e : BitFieldEmitter)
  : BitFieldEmitter * completion :=
  emit_loop (Z.to_nat (hint_or_default hint e)) 0 code data [] e.

(** *** What a dispatch does, in closed form *)

(** The calls one dispatch of [h] gives rise to. *)
Definition events_of (d : T) (code : Z) (h : handler) : list event :=
  Dispatch h d code ::
  match h with
  | Fn _ => []
  | OnceHandler _ f _ => [Forward h f d code]
  end.

(** The table after a call of [h]. *)
Definition after_call (h : handler) (tbl : list hset) : list hset :=
  match h with
  | Fn _ => tbl
  | OnceHandler _ f maxBitsHint =>
      if fn_throws f then tbl
      else update_range (fun _ => HSet.delete h) 0 (Z.to_nat maxBitsHint) tbl
  end.

Definition after_calls (hs : list handler) (tbl : list hset) : list hset :=
  foldl (fun t h => after_call h t) tbl hs.

End Emitter.

Arguments event : clear implicits.
Arguments BitFieldEmitter : clear implicits.

(** ** The dispatch plan of [emit] *)

(** Handlers of [l] in order, without those in [called] and keeping only
    the first occurrence of each. *)
Fixpoint first_new (called l : list handler) : list handler :=
  match l with
  | [] => []
  | h :: l' =>
      if decide (h ∈ called) then first_new called l'
      else h :: first_new (h :: called) l'
  end.

Definition slot_values (tbl : list hset) (i : nat) : list handler :=
  from_option HSet.values [] (tbl !! i).

(** The handlers found on the set bits of [code], from slot [bit] on,
    [n] slots, in the order [emit] meets them. *)
Definition matching (code : Z) (bit n : nat) (tbl : list hset) : list handler :=
  flat_map (fun i => if bit_set code i then slot_values tbl i else []) (seq bit n).

(** How a call of [h] completes on a table of [len] slots. *)
Definition outcome (len : nat) (h : handler) : completion :=
  match h with
  | Fn f => if fn_throws f then Throw (Raised f) else Normal
  | OnceHandler _ f maxBitsHint =>
      if fn_throws f then Throw (Raised f)
      else thrown_if (past_end (fun _ => true) len 0 (Z.to_nat maxBitsHint))
  end.

(** Calling the handlers of [hs] in turn, up to the first throw. *)
Fixpoint deliver (len : nat) (hs : list handler) : list handler * completion :=
  match hs with
  | [] => ([], Normal)
  | h :: hs' =>
      match outcome len h with
      | Normal => let r := deliver len hs' in (h :: r.1, r.2)
      | Throw x => ([h], Throw x)
      end
  end.

Definition is_once (h : handler) : bool :=
  match h with OnceHandler _ _ _ => true | Fn _ => false end.

(** [tbl'] is [tbl] with some entries emptied, all of them [onceHandler]s
    of [called]. *)
Definition emptied (called : list handler) (x y : option handler) : Prop :=
  y = x \/ (y = None /\ exists a, x = Some a /\ a ∈ called /\ is_once a = true).

Definition retired (called : list handler) (tbl tbl' : list hset) : Prop :=
  Forall2 (Forall2 (emptied called)) tbl tbl'.

(** [l'] is [l] without some occurrences of handlers of [called]. *)
Inductive thinned (called : list handler) : list handler -> list handler -> Prop :=
| thinned_nil : thinned called [] []
| thinned_keep h l l' : thinned called l l' -> thinned called (h :: l) (h :: l')
| thinned_drop h l l' : h ∈ called -> thinned called l l' -> thinned called (h :: l) l'.

(** ** Registrations *)

(** [h] is listening on bit [i]. *)
Definition listening (h : handler) (i : nat) (tbl : list hset) : Prop :=
  exists s : hset, tbl !! i = Some s /\ Some h ∈ s.

Definition registered (h : handler) (tbl : list hset) : Prop :=
  exists i, listening h i tbl.

(** No registered handler throws when called. *)
Definition calm (tbl : list hset) : Prop :=
  forall h, registered h tbl -> outcome (length tbl) h = Normal.

(** The two codes share a set bit among the first [n] positions. *)
Definition overlap (code code' : Z) (n : nat) : Prop :=
  exists i, i < n /\ bit_set code i = true /\ bit_set code' i = true.

(** ** What is observed of the emitter *)

Section Observations.

Context {T : Type}.
Implicit Types (e : BitFieldEmitter T) (d : T).

(** The calls made between two states of the emitter. *)
Definition news (e e' : BitFieldEmitter T) : list (event T) :=
  drop (length (calls e)) (calls e').

Definition dispatch_of (ev : event T) : option handler :=
  match ev with
  | Dispatch h _ _ => Some h
  | Forward _ _ _ _ => None
  end.

(** The client function an event runs, if any. *)
Definition run_of (ev : event T) : option client_fn :=
  match ev with
  | Dispatch (Fn f) _ _ => Some f
  | Dispatch (OnceHandler _ _ _) _ _ => None
  | Forward _ f _ _ => Some f
  end.

(** The calls [handler(data, code)] that [emit] made. *)
Definition dispatches (evs : list (event T)) : list (event T) :=
  filter (fun ev => is_Some (dispatch_of ev)) evs.

Definition dispatches_to (h : handler) (evs : list (event T)) : list (event T) :=
  filter (fun ev => dispatch_of ev = Some h) evs.

Definition runs_of (f : client_fn) (evs : list (event T)) : list (event T) :=
  filter (fun ev => run_of ev = Some f) evs.

(** Publishing several times, whatever each call's completion. *)
Definition emits (es : list (Z * T * option Z)) (e : BitFieldEmitter T)
  : BitFieldEmitter T :=
  foldl (fun e x => (emit x.1.1 x.1.2 x.2 e).1) e es.



(** The table has the [maxBits] slots the constructor gave it. *)
Definition table_ok (e : BitFieldEmitter T) : Prop :=
  length (handlers e) = Z.to_nat (maxBits e).

(** The handlers [emit] gets to call. *)
Definition attempted (code : Z) (hint : option Z) e : list handler :=
  (deliver (length (handlers e))
     (first_new [] (matching code 0 (Z.to_nat (hint_or_default hint e)) (handlers e)))).1.

(** Events that all come from handlers registered in [tbl]. *)
Definition from_registered (tbl : list hset) (evs : list (event T)) : Prop :=
  forall ev, ev ∈ evs -> exists h d code, registered h tbl /\ ev ∈ events_of d code h.

(** The state between [once(code, f)] and the first publish that reaches
    its [onceHandler] [a]: the table is whole and calm, [a] is the only
    registered handler that runs [f], and it listens on the set bits of
    [code]. *)
Definition armed (a : handler) (code : Z) (e : BitFieldEmitter T) : Prop :=
  table_ok e
  /\ calm (handlers e)
  /\ (forall g, registered g (handlers e) -> target g = target a -> g = a)
  /\ (forall i, listening a i (handlers e) <->
                i < length (handlers e) /\ bit_set code i = true).

End Observations.

(** ** Deciding the hypotheses on a given table *)

(** [p] holds of every handler registered in [tbl]. *)
Definition all_handlers (p : handler -> bool) (tbl : list hset) : bool :=
  forallb (forallb (from_option p true)) tbl.

Definition listeningb (h : handler) (i : nat) (tbl : list hset) : bool :=
  from_option (HSet.has h) false (tbl !! i).

#[global] Instance exn_eq_dec : EqDecision exn.
Proof. solve_decision. Defined.

#[global] Instance completion_eq_dec : EqDecision completion.
Proof. solve_decision. Defined.

(** ** Sample handlers and emitters *)

Definition fnA : client_fn := ClientFn 0 false.
Definition fnB : client_fn := ClientFn 1 false.
Definition fnBad : client_fn := ClientFn 2 true.

Definition emitter_of (maxBits : Z) : BitFieldEmitter nat :=
  Emitter maxBits (replicate (Z.to_nat maxBits) []) 0 [].

(** [on(3, A)] on four slots. *)
Definition emitter_A : BitFieldEmitter nat := (on 3 (Fn fnA) None (emitter_of 4)).1.

(** [on(1, A); on(1, B)] on one slot. *)
Definition emitter_AB : BitFieldEmitter nat :=
  (on 1 (Fn fnB) None (on 1 (Fn fnA) None (emitter_of 1)).1).1.

(** [on(1, A); on(2, Bad); on(4, B)] on four slots. *)
Definition emitter_ABadB : BitFieldEmitter nat :=
  (on 4 (Fn fnB) None (on 2 (Fn fnBad) None (on 1 (Fn fnA) None (emitter_of 4)).1).1).1.

(** [on(6, A)] on four slots. *)
Definition emitter_A6 : BitFieldEmitter nat := (on 6 (Fn fnA) None (emitter_of 4)).1.

(** [on(3, A); on(5, B)] on four slots. *)
Definition emitter_A3B5 : BitFieldEmitter nat :=
  (on 5 (Fn fnB) None (on 3 (Fn fnA) None (emitter_of 4)).1).1.

(** ** Sessions of calls *)

Section Sessions.
Context {T : Type}.

(** What a client can ask of the emitter; clients hold client functions,
    never a [onceHandler]. *)
Inductive call :=
| CallOn (code : Z) (f : client_fn) (hint : option Z)
| CallRemove (f : client_fn) (hint : option Z)
| CallRemoveGroup (fs : iterable client_fn) (hint : option Z)
| CallOnce (code : Z) (f : client_fn) (hint : option Z)
| CallEmit (code : Z) (data : T) (hint : option Z).

Definition perform (c : call) (e : BitFieldEmitter T)
  : BitFieldEmitter T * completion :=
  match c with
  | CallOn code f hint => on code (Fn f) hint e
  | CallRemove f hint => remove (Fn f) hint e
  | CallRemoveGroup fs hint => removeGroup (fun k => Fn <$> fs k) hint e
  | CallOnce code f hint => once code f hint e
  | CallEmit code d hint => emit code d hint e
  end.

(** A run of calls, each one made whatever the completion of the last. *)
Definition session (cs : list call) (e : BitFieldEmitter T) : BitFieldEmitter T :=
  foldl (fun e c => (perform c e).1) e cs.

(** Every slot lists a handler at most once, and every registered
    [onceHandler] is a closure already allocated. *)
Definition sound (e : BitFieldEmitter T) : Prop :=
  table_ok e
  /\ (forall i, NoDup (slot_values (handlers e) i))
  /\ (forall c f hint, registered (OnceHandler c f hint) (handlers e) -> c < closures e).

End Sessions.

Arguments call : clear implicits.

(** * Properties *)

(** ** The bit test *)

Section Bits.

Local Open Scope Z_scope.

Lemma ToInt32_range x : -2 ^ 31 <= JS.ToInt32 x < 2 ^ 31.
Proof.
  unfold JS.ToInt32.
  pose proof (Z.mod_pos_bound (x + 2 ^ 31) (2 ^ 32) ltac:(lia)). lia.
Qed.

Lemma ToInt32_small x : -2 ^ 31 <= x < 2 ^ 31 -> JS.ToInt32 x = x.
Proof.
  intros Hx. unfold JS.ToInt32. rewrite Z.mod_small by lia. lia.
Qed.

Lemma ToInt32_testbit_low x j :
  0 <= j < 32 -> Z.testbit (JS.ToInt32 x) j = Z.testbit x j.
Proof.
  intros Hj.
  rewrite <- (Z.mod_pow2_bits_low (JS.ToInt32 x) 32 j) by lia.
  rewrite <- (Z.mod_pow2_bits_low x 32 j) by lia.
  f_equal. unfold JS.ToInt32.
  rewrite Zminus_mod, Zmod_mod, <- Zminus_mod. f_equal. lia.
Qed.

Lemma int32_testbit_high y j :
  -2 ^ 31 <= y < 2 ^ 31 -> 31 <= j -> Z.testbit y j = Z.testbit y 31.
Proof.
  intros Hy Hj. destruct (Z_lt_le_dec y 0) as [Hneg|Hpos].
  - assert (Hlog : Z.log2 (Z.pred (- y)) < 31).
    { destruct (Z.eq_dec (Z.pred (- y)) 0) as [->|Hne]; [done|].
      apply Z.log2_lt_pow2; lia. }
    rewrite !Z.bits_above_log2_neg; auto; lia.
  - assert (Hlog : Z.log2 y < 31).
    { destruct (Z.eq_dec y 0) as [->|Hne]; [done|].
      apply Z.log2_lt_pow2; lia. }
    rewrite !Z.bits_above_log2; auto; lia.
Qed.

Lemma land_pow2_truthy a k :
  0 <= k -> JS.truthy (Z.land a (2 ^ k)) = Z.testbit a k.
Proof.
  intros Hk. unfold JS.truthy.
  destruct (Z.testbit a k) eqn:Hbit.
  - apply negb_true_iff, Z.eqb_neq. intros H0.
    assert (Z.testbit (Z.land a (2 ^ k)) k = true) as Hl
      by (rewrite Z.land_spec, Hbit, Z.pow2_bits_true; done).
    rewrite H0, Z.bits_0 in Hl. done.
  - apply negb_false_iff, Z.eqb_eq, Z.bits_inj'. intros j Hj.
    rewrite Z.land_spec, Z.bits_0, Z.pow2_bits_eqb by done.
    destruct (Z.eqb_spec k j) as [->|]; [by rewrite Hbit|apply andb_false_r].
Qed.

Lemma land_sign_truthy a :
  -2 ^ 31 <= a < 2 ^ 31 -> JS.truthy (Z.land a (- 2 ^ 31)) = Z.testbit a 31.
Proof.
  intros Ha. unfold JS.truthy.
  assert (Hm : forall j, 0 <= j -> Z.testbit (- 2 ^ 31) j = negb (j <? 31)).
  { intros j Hj. rewrite Z.bits_opp by done.
    replace (Z.pred (2 ^ 31)) with (Z.ones 31) by done.
    destruct (Z.ltb_spec j 31).
    - by rewrite Z.ones_spec_low by lia.
    - by rewrite Z.ones_spec_high by lia. }
  destruct (Z.testbit a 31) eqn:Hbit.
  - apply negb_true_iff, Z.eqb_neq. intros H0.
    assert (Z.testbit (Z.land a (- 2 ^ 31)) 31 = true) as Hl
      by (rewrite Z.land_spec, Hbit, Hm; done).
    rewrite H0, Z.bits_0 in Hl. done.
  - apply negb_false_iff, Z.eqb_eq, Z.bits_inj'. intros j Hj.
    rewrite Z.land_spec, Z.bits_0, Hm by done.
    destruct (Z.ltb_spec j 31); [apply andb_false_r|].
    rewrite int32_testbit_high, Hbit by lia. done.
Qed.

(** [code & (1 << i)] tests bit [i mod 32] of [code]. *)
Lemma bit_set_testbit code i :
  bit_set code i = Z.testbit code (Z.of_nat i mod 32).
Proof.
  unfold bit_set, JS.and, JS.shl.
  pose proof (Z.mod_pos_bound (Z.of_nat i) 32 ltac:(lia)) as Hk.
  set (k := Z.of_nat i mod 32) in *.
  rewrite (ToInt32_small 1), Z.shiftl_1_l by lia.
  pose proof (ToInt32_range code) as Hc.
  destruct (Z.eq_dec k 31) as [->|Hne].
  - replace (JS.ToInt32 (JS.ToInt32 (2 ^ 31))) with (- 2 ^ 31) by done.
    rewrite land_sign_truthy by done. apply ToInt32_testbit_low. lia.
  - assert (2 ^ k < 2 ^ 31) by (apply Z.pow_lt_mono_r; lia).
    assert (0 < 2 ^ k) by (apply Z.pow_pos_nonneg; lia).
    rewrite !(ToInt32_small (2 ^ k)) by lia.
    rewrite land_pow2_truthy by lia. apply ToInt32_testbit_low. lia.
Qed.

(** [a & b] is non-zero exactly when the operands share one of the 32 bits. *)
Lemma and_truthy_bits a b :
  JS.truthy (JS.and a b) = true <->
  exists i : nat, (i < 32)%nat /\ bit_set a i = true /\ bit_set b i = true.
Proof.
  unfold JS.and, JS.truthy. rewrite negb_true_iff, Z.eqb_neq.
  pose proof (ToInt32_range a) as Ha. pose proof (ToInt32_range b) as Hb.
  split.
  - intros Hne.
    destruct (existsb (fun i => bit_set a i && bit_set b i) (seq 0 32)) eqn:Hex.
    { apply existsb_exists in Hex as (i & Hin & Hi).
      apply in_seq in Hin. apply andb_true_iff in Hi. exists i. split; [lia|done]. }
    assert (Hno : ~ exists i : nat, (i < 32)%nat /\ bit_set a i = true /\ bit_set b i = true).
    { intros (i & Hi & H1 & H2).
      apply not_true_iff_false in Hex. apply Hex, existsb_exists.
      exists i. rewrite in_seq, H1, H2. split; [lia|done]. }
    exfalso. apply Hne. apply Z.bits_inj'. intros j Hj.
    rewrite Z.land_spec, Z.bits_0.
    assert (Hlow : forall j, 0 <= j < 32 ->
      Z.testbit (JS.ToInt32 a) j && Z.testbit (JS.ToInt32 b) j = false).
    { intros j' Hj'. apply not_true_is_false. intros Hand.
      apply andb_true_iff in Hand as [H1 H2].
      rewrite ToInt32_testbit_low in H1, H2 by done.
      apply Hno. exists (Z.to_nat j').
      rewrite !bit_set_testbit, Z2Nat.id, Z.mod_small by lia.
      split; [lia|done]. }
    destruct (Z_lt_le_dec j 32); [apply Hlow; lia|].
    rewrite (int32_testbit_high (JS.ToInt32 a)), (int32_testbit_high (JS.ToInt32 b)) by lia.
    apply Hlow. lia.
  - intros (i & Hi & H1 & H2) H0.
    rewrite bit_set_testbit, Z.mod_small in H1, H2 by lia.
    assert (Z.testbit (Z.land (JS.ToInt32 a) (JS.ToInt32 b)) (Z.of_nat i) = true) as Hl.
    { rewrite Z.land_spec, !ToInt32_testbit_low by lia. by rewrite H1, H2. }
    rewrite H0, Z.bits_0 in Hl. done.
Qed.

End Bits.

(** ** The registration loops *)

Lemma update_range_lookup f lo hi tbl j :
  update_range f lo hi tbl !! j =
  (fun s => if bool_decide (lo <= j < hi) then f j s else s) <$> tbl !! j.
Proof. unfold update_range. by rewrite list_lookup_imap. Qed.

Lemma update_range_length f lo hi tbl :
  length (update_range f lo hi tbl) = length tbl.
Proof. apply length_imap. Qed.

Lemma update_range_empty f lo tbl : update_range f lo lo tbl = tbl.
Proof.
  apply list_eq. intros j. rewrite update_range_lookup.
  rewrite bool_decide_eq_false_2 by lia. by destruct (tbl !! j).
Qed.

Lemma update_range_past f lo hi tbl :
  length tbl <= lo -> update_range f lo hi tbl = tbl.
Proof.
  intros Hlen. apply list_eq. intros j. rewrite update_range_lookup.
  destruct (tbl !! j) eqn:Hj; [|done]. apply lookup_lt_Some in Hj.
  rewrite bool_decide_eq_false_2 by lia. done.
Qed.

Lemma update_range_step f lo hi tbl s :
  lo < hi -> tbl !! lo = Some s ->
  update_range f (S lo) hi (<[lo := f lo s]> tbl) = update_range f lo hi tbl.
Proof.
  intros Hlt Hs. apply list_eq. intros j. rewrite !update_range_lookup.
  destruct (decide (j = lo)) as [->|Hne].
  - rewrite list_lookup_insert_eq by (by eapply lookup_lt_Some).
    rewrite Hs. simpl.
    rewrite bool_decide_eq_false_2, bool_decide_eq_true_2 by lia. done.
  - rewrite list_lookup_insert_ne by done.
    destruct (tbl !! j); [simpl|done].
    destruct (decide (lo <= j < hi)).
    + rewrite !bool_decide_eq_true_2 by lia. done.
    + rewrite !bool_decide_eq_false_2 by lia. done.
Qed.

Lemma update_range_skip f lo hi tbl :
  (forall s, f lo s = s) ->
  update_range f (S lo) hi tbl = update_range f lo hi tbl.
Proof.
  intros Hid. apply list_eq. intros j. rewrite !update_range_lookup.
  destruct (tbl !! j) as [s|]; [simpl|done]. f_equal.
  destruct (decide (j = lo)) as [->|Hne].
  - rewrite bool_decide_eq_false_2 by lia. case_bool_decide; by rewrite ?Hid.
  - destruct (decide (lo <= j < hi)).
    + rewrite !bool_decide_eq_true_2 by lia. done.
    + rewrite !bool_decide_eq_false_2 by lia. done.
Qed.

Lemma past_end_cons p len bit n :
  past_end p len bit (S n) = bool_decide (len <= bit) && p bit || past_end p len (S bit) n.
Proof. done. Qed.

Lemma past_end_inside p len bit n : bit + n <= len -> past_end p len bit n = false.
Proof.
  intros Hle. apply not_true_iff_false. intros Hex.
  apply existsb_exists in Hex as (j & Hin & Hj). apply in_seq in Hin.
  apply andb_true_iff in Hj as [Hj _]. apply bool_decide_eq_true in Hj. lia.
Qed.

Lemma on_loop_spec code h n i tbl :
  on_loop n i code h tbl =
  (update_range (on_slot code h) i (i + n) tbl,
   thrown_if (past_end (bit_set code) (length tbl) i n)).
Proof.
  revert i tbl. induction n as [|n IH]; intros i tbl.
  - simpl. by rewrite Nat.add_0_r, update_range_empty.
  - rewrite past_end_cons. simpl on_loop.
    destruct (bit_set code i) eqn:Hbit.
    + destruct (tbl !! i) as [s|] eqn:Hs.
      * rewrite IH, length_insert.
        replace (HSet.add h s) with (on_slot code h i s)
          by (unfold on_slot; by rewrite Hbit).
        replace (S i + n) with (i + S n) by lia.
        rewrite update_range_step by (done || lia).
        apply lookup_lt_Some in Hs.
        rewrite bool_decide_eq_false_2 by lia. done.
      * apply lookup_ge_None in Hs.
        rewrite update_range_past, bool_decide_eq_true_2 by lia. done.
    + rewrite IH, andb_false_r, orb_false_l. f_equal.
      replace (S i + n) with (i + S n) by lia.
      apply update_range_skip. intros s. unfold on_slot. by rewrite Hbit.
Qed.

Lemma remove_loop_spec h n bit tbl :
  remove_loop n bit h tbl =
  (update_range (fun _ => HSet.delete h) bit (bit + n) tbl,
   thrown_if (past_end (fun _ => true) (length tbl) bit n)).
Proof.
  revert bit tbl. induction n as [|n IH]; intros bit tbl.
  - simpl. by rewrite Nat.add_0_r, update_range_empty.
  - rewrite past_end_cons. simpl remove_loop.
    destruct (tbl !! bit) as [s|] eqn:Hs.
    + rewrite IH, length_insert.
      replace (S bit + n) with (bit + S n) by lia.
      rewrite (update_range_step (fun _ => HSet.delete h)) by (done || lia).
      apply lookup_lt_Some in Hs.
      rewrite bool_decide_eq_false_2 by lia. done.
    + apply lookup_ge_None in Hs.
      rewrite update_range_past, bool_decide_eq_true_2 by lia. done.
Qed.

Lemma removeGroup_slot_spec hs bit tbl :
  removeGroup_slot hs bit tbl =
  match tbl !! bit with
  | Some s => (<[bit := delete_all hs s]> tbl, Normal)
  | None => (tbl, thrown_if (bool_decide (hs <> [])))
  end.
Proof.
  revert tbl. induction hs as [|h hs IH]; intros tbl; simpl.
  - destruct (tbl !! bit) eqn:Hs; [|done]. by rewrite list_insert_id.
  - destruct (tbl !! bit) as [s|] eqn:Hs; [|done].
    rewrite IH, list_lookup_insert_eq by (by eapply lookup_lt_Some).
    by rewrite list_insert_insert_eq.
Qed.

Lemma update_range_shift f g lo hi tbl :
  (forall j s, lo <= j < hi -> f j s = g j s) ->
  update_range f lo hi tbl = update_range g lo hi tbl.
Proof.
  intros Hext. apply list_eq. intros j. rewrite !update_range_lookup.
  destruct (tbl !! j) as [s|]; [simpl|done].
  case_bool_decide; [by rewrite Hext|done].
Qed.

Lemma past_end_shift p q len bit n :
  (forall j, bit <= j < bit + n -> p j = q j) ->
  past_end p len bit n = past_end q len bit n.
Proof.
  intros Hext. unfold past_end. revert bit Hext.
  induction n as [|n IH]; intros bit Hext; [done|].
  cbn [seq existsb]. rewrite (Hext bit) by lia. f_equal. apply IH.
  intros j Hj. apply Hext. lia.
Qed.

Lemma removeGroup_loop_spec (it : iterable handler) n bit tbl :
  removeGroup_loop n bit it tbl =
  (update_range (fun j => delete_all (it (j - bit))) bit (bit + n) tbl,
   thrown_if (past_end (fun j => bool_decide (it (j - bit) <> []))
                (length tbl) bit n)).
Proof.
  revert it bit tbl. induction n as [|n IH]; intros it bit tbl.
  - simpl. by rewrite Nat.add_0_r, update_range_empty.
  - rewrite past_end_cons. cbn [removeGroup_loop walk].
    rewrite removeGroup_slot_spec, Nat.sub_diag.
    replace (bit + S n) with (S bit + n) by lia.
    assert (Hshift : forall j, S bit <= j -> S (j - S bit) = j - bit)
      by (intros; lia).
    destruct (tbl !! bit) as [s|] eqn:Hs.
    + rewrite IH, length_insert.
      rewrite (update_range_shift (fun j => delete_all (it (S (j - S bit))))
                 (fun j => delete_all (it (j - bit))))
        by (intros j s' Hj; by rewrite Hshift by lia).
      rewrite <- (Nat.sub_diag bit) at 1.
      rewrite (update_range_step (fun j => delete_all (it (j - bit)))) by (done || lia).
      apply lookup_lt_Some in Hs.
      rewrite (bool_decide_eq_false_2 (length tbl <= bit)) by lia.
      rewrite andb_false_l, orb_false_l. f_equal. f_equal.
      apply past_end_shift. intros j Hj. by rewrite Hshift by lia.
    + apply lookup_ge_None in Hs.
      rewrite (bool_decide_eq_true_2 (length tbl <= bit)) by lia. simpl.
      destruct (bool_decide (it 0 <> [])) eqn:Hne; simpl.
      * rewrite update_range_past by lia. done.
      * rewrite IH. rewrite !update_range_past by lia. f_equal. f_equal.
        apply past_end_shift. intros j Hj. by rewrite Hshift by lia.
Qed.

(** ** Dispatch plans *)

Lemma first_new_elem called l h :
  h ∈ first_new called l <-> h ∈ l /\ h ∉ called.
Proof.
  revert called. induction l as [|g l IH]; intros called; simpl.
  - rewrite elem_of_nil. tauto.
  - destruct (decide (g ∈ called)) as [Hin|Hout].
    + rewrite IH, elem_of_cons. split; [tauto|].
      intros [[->|?] ?]; tauto.
    + rewrite !elem_of_cons, IH, elem_of_cons.
      destruct (decide (h = g)) as [->|Hne]; tauto.
Qed.

Lemma first_new_NoDup called l : NoDup (first_new called l).
Proof.
  revert called. induction l as [|g l IH]; intros called; simpl.
  - constructor.
  - destruct (decide (g ∈ called)); [apply IH|].
    constructor; [|apply IH].
    rewrite first_new_elem, elem_of_cons. tauto.
Qed.

Lemma first_new_ext called called' l :
  (forall h, h ∈ called <-> h ∈ called') ->
  first_new called l = first_new called' l.
Proof.
  revert called called'. induction l as [|g l IH]; intros called called' Heq; simpl; [done|].
  destruct (decide (g ∈ called)) as [Hin|Hout];
    destruct (decide (g ∈ called')) as [Hin'|Hout']; try (apply Heq in Hin; done).
  - by apply IH.
  - apply Heq in Hin'. done.
  - f_equal. apply IH. intros h. rewrite !elem_of_cons, Heq. done.
Qed.

Lemma first_new_app called l1 l2 :
  first_new called (l1 ++ l2) =
  first_new called l1 ++ first_new (reverse (first_new called l1) ++ called) l2.
Proof.
  revert called. induction l1 as [|g l1 IH]; intros called; simpl; [done|].
  destruct (decide (g ∈ called)); [apply IH|].
  simpl. f_equal. rewrite IH, reverse_cons, <- app_assoc. done.
Qed.

Lemma thinned_refl called l : thinned called l l.
Proof. induction l; constructor; done. Qed.

Lemma thinned_app called l1 l1' l2 l2' :
  thinned called l1 l1' -> thinned called l2 l2' ->
  thinned called (l1 ++ l2) (l1' ++ l2').
Proof. induction 1; intros; simpl; try constructor; auto. Qed.

Lemma first_new_thinned called l l' :
  thinned called l l' ->
  forall called', called ⊆ called' -> first_new called' l' = first_new called' l.
Proof.
  induction 1 as [|h l l' _ IH|h l l' Hin _ IH]; intros called' Hsub; simpl.
  - done.
  - destruct (decide (h ∈ called')); [by apply IH|].
    f_equal. apply IH. intros g Hg. apply elem_of_cons. right. by apply Hsub.
  - rewrite decide_True by (by apply Hsub). by apply IH.
Qed.

Lemma deliver_normal len hs att :
  deliver len hs = (att, Normal) -> att = hs.
Proof.
  revert att. induction hs as [|h hs IH]; intros att; simpl.
  - by intros [= <-].
  - destruct (outcome len h); [|done].
    destruct (deliver len hs) as [att' c'] eqn:Hd. simpl.
    intros [= <- ->]. f_equal. by apply IH.
Qed.

Lemma deliver_app len hs1 hs2 :
  deliver len (hs1 ++ hs2) =
  match deliver len hs1 with
  | (att, Normal) => let r := deliver len hs2 in (att ++ r.1, r.2)
  | r => r
  end.
Proof.
  induction hs1 as [|h hs1 IH]; simpl.
  - by destruct (deliver len hs2).
  - destruct (outcome len h); [|done].
    rewrite IH. destruct (deliver len hs1) as [att [|x]]; done.
Qed.

Lemma deliver_prefix len hs : (deliver len hs).1 `prefix_of` hs.
Proof.
  induction hs as [|h hs IH]; simpl; [done|].
  destruct (outcome len h); simpl.
  - by apply prefix_cons.
  - by exists hs.
Qed.

(** ** What [emit] does *)

Section EmitSpec.

Context {T : Type}.
Implicit Types (e : BitFieldEmitter T) (d : T).

Lemma emitter_eta e :
  Emitter (maxBits e) (handlers e) (closures e) (calls e) = e.
Proof. by destruct e. Qed.

Lemma remove_spec h hint e :
  remove h hint e =
  (with_handlers e
     (update_range (fun _ => HSet.delete h) 0 (Z.to_nat (hint_or_default hint e)) (handlers e)),
   thrown_if (past_end (fun _ => true) (length (handlers e)) 0 (Z.to_nat (hint_or_default hint e)))).
Proof. unfold remove. by rewrite remove_loop_spec. Qed.

Lemma invoke_spec h d code e :
  invoke h d code (log (Dispatch h d code) e) =
  (Emitter (maxBits e) (after_call h (handlers e)) (closures e)
     (calls e ++ events_of d code h),
   outcome (length (handlers e)) h).
Proof.
  destruct h as [f|c f hint]; simpl.
  - done.
  - destruct (fn_throws f).
    + unfold log. simpl. by rewrite <- app_assoc.
    + rewrite remove_spec. unfold with_handlers, log. simpl.
      by rewrite <- app_assoc.
Qed.

Lemma after_call_length h tbl : length (after_call h tbl) = length tbl.
Proof.
  destruct h as [f|c f hint]; cbn [after_call]; [done|].
  destruct (fn_throws f); [done|apply update_range_length].
Qed.

Lemma after_calls_length hs tbl : length (after_calls hs tbl) = length tbl.
Proof.
  revert tbl. induction hs as [|h hs IH]; intros tbl; simpl; [done|].
  unfold after_calls in *. simpl. by rewrite IH, after_call_length.
Qed.

Lemma retired_refl called tbl : retired called tbl tbl.
Proof. apply Forall2_same_length_lookup_2; [done|].
  intros i s s' Hs Hs'. rewrite Hs in Hs'. injection Hs' as <-.
  apply Forall2_same_length_lookup_2; [done|].
  intros j x y Hx Hy. left. congruence.
Qed.

Lemma retired_mono called called' tbl tbl' :
  called ⊆ called' -> retired called tbl tbl' -> retired called' tbl tbl'.
Proof.
  intros Hsub. apply Forall2_impl. intros s s'. apply Forall2_impl.
  unfold emptied. intros x y [->|(-> & a & -> & Ha & Ho)]; [by left|right].
  split; [done|]. exists a. split; [done|]. split; [by apply Hsub|done].
Qed.

Lemma retired_trans called tbl1 tbl2 tbl3 :
  retired called tbl1 tbl2 -> retired called tbl2 tbl3 -> retired called tbl1 tbl3.
Proof.
  unfold retired. intros H12 H23.
  eapply Forall2_trans; [|exact H12|exact H23].
  intros s1 s2 s3 Hs12 Hs23.
  eapply Forall2_trans; [|exact Hs12|exact Hs23].
  intros x y z [->|(-> & a & -> & Ha)] [->|(-> & b & Hb & Hb')]; try done.
  - by left.
  - right. split; [done|]. by exists b.
  - right. split; [done|]. by exists a.
Qed.

Lemma retired_length called tbl tbl' :
  retired called tbl tbl' -> length tbl' = length tbl.
Proof. intros H. symmetry. by eapply Forall2_length. Qed.

Lemma after_call_retired h tbl : retired [h] tbl (after_call h tbl).
Proof.
  destruct h as [f|c f hint]; cbn [after_call]; [apply retired_refl|].
  destruct (fn_throws f); [apply retired_refl|].
  apply Forall2_same_length_lookup_2; [by rewrite update_range_length|].
  intros i s s' Hs Hs'. rewrite update_range_lookup, Hs in Hs'.
  injection Hs' as <-. case_bool_decide.
  - unfold HSet.delete. apply Forall2_fmap_r.
    apply Forall_Forall2_diag, Forall_forall.
    intros x _. simpl. case_decide as Hx; [|by left]. right. split; [done|].
    eexists. split; [done|]. split; [apply list_elem_of_singleton|]; done.
  - apply Forall_Forall2_diag, Forall_forall. by left.
Qed.

Lemma invoke_handlers h d code e :
  handlers (invoke h d code e).1 = after_call h (handlers e).
Proof.
  destruct h as [f|c f hint]; cbn [invoke after_call]; [done|].
  destruct (fn_throws f); [done|]. by rewrite remove_spec.
Qed.

(** A call empties entries at most: the table and each of its sets keep
    their number of entries. *)
Lemma invoke_shape h d code e :
  Forall2 (fun s s' : hset => length s' = length s)
    (handlers e) (handlers (invoke h d code e).1).
Proof.
  rewrite invoke_handlers.
  eapply Forall2_impl; [|apply (after_call_retired h)].
  intros s s' Hss. symmetry. by eapply Forall2_length.
Qed.

Lemma after_calls_retired hs tbl : retired hs tbl (after_calls hs tbl).
Proof.
  revert tbl. induction hs as [|h hs IH]; intros tbl; [apply retired_refl|].
  unfold after_calls in *. simpl.
  eapply retired_trans.
  - eapply retired_mono; [|apply after_call_retired].
    intros g Hg. apply list_elem_of_singleton in Hg as ->. by left.
  - eapply retired_mono; [|apply IH]. intros g Hg. by right.
Qed.

Lemma thinned_values called (s s' : hset) :
  Forall2 (emptied called) s s' ->
  thinned called (HSet.values s) (HSet.values s').
Proof.
  induction 1 as [|x y s s' Hxy _ IH]; [constructor|].
  destruct Hxy as [->|(-> & a & -> & Ha & _)].
  - destruct x; simpl; [by constructor|done].
  - simpl. by constructor.
Qed.

Lemma retired_slot_values called tbl tbl' i :
  retired called tbl tbl' ->
  thinned called (slot_values tbl i) (slot_values tbl' i).
Proof.
  intros Hr. unfold slot_values.
  destruct (tbl !! i) as [s|] eqn:Hs.
  - destruct (Forall2_lookup_l _ _ _ _ _ Hr Hs) as (s' & -> & Hss).
    by apply thinned_values.
  - apply lookup_ge_None in Hs. erewrite <- retired_length in Hs by done.
    apply lookup_ge_None in Hs. rewrite Hs. constructor.
Qed.

Lemma retired_matching called code bit n tbl tbl' :
  retired called tbl tbl' ->
  thinned called (matching code bit n tbl) (matching code bit n tbl').
Proof.
  intros Hr. revert bit. unfold matching.
  induction n as [|n IH]; intros bit; simpl; [constructor|].
  apply thinned_app; [|apply IH].
  destruct (bit_set code bit); [by apply retired_slot_values|constructor].
Qed.

Lemma matching_past code bit n tbl :
  length tbl <= bit -> matching code bit n tbl = [].
Proof.
  revert bit. unfold matching. induction n as [|n IH]; intros bit Hlen; simpl; [done|].
  rewrite IH by lia. unfold slot_values.
  rewrite (proj2 (lookup_ge_None tbl bit)) by done.
  by destruct (bit_set code bit).
Qed.

Lemma after_calls_cons h hs tbl :
  after_calls (h :: hs) tbl = after_calls hs (after_call h tbl).
Proof. done. Qed.

Lemma after_calls_app hs1 hs2 tbl :
  after_calls (hs1 ++ hs2) tbl = after_calls hs2 (after_calls hs1 tbl).
Proof. apply foldl_app. Qed.

Lemma values_cons h (s : hset) :
  HSet.values (Some h :: s) = h :: HSet.values s.
Proof. done. Qed.

Lemma emit_slot_spec code d bit n :
  forall idx called e (s : hset),
  handlers e !! bit = Some s -> length s = idx + n ->
  let r := deliver (length (handlers e))
             (first_new called (HSet.values (drop idx s))) in
  exists called',
    emit_slot n idx bit code d called e =
      (Emitter (maxBits e) (after_calls r.1 (handlers e)) (closures e)
         (calls e ++ flat_map (events_of d code) r.1), called', r.2)
    /\ (r.2 = Normal -> called' = reverse r.1 ++ called).
Proof.
  induction n as [|n IH]; intros idx called e s Hs Hlen.
  - rewrite drop_ge by lia. simpl. exists called.
    by rewrite app_nil_r, emitter_eta.
  - destruct (lookup_lt_is_Some_2 s idx ltac:(lia)) as [x Hx].
    rewrite (drop_S _ _ _ Hx). cbn [emit_slot]. rewrite Hs. simpl option_bind.
    assert (Hnext : length s = S idx + n) by lia.
    cbn [mbind option_bind]. rewrite Hx.
    destruct x as [h|]; [|by apply IH].
    rewrite values_cons. cbn [first_new].
    destruct (decide (h ∈ called)) as [Hin|Hout]; [by apply IH|].
    rewrite invoke_spec. cbn [deliver].
    destruct (outcome (length (handlers e)) h) as [|x] eqn:Hout_h.
    + set (e1 := Emitter _ _ _ _).
      pose proof (after_call_retired h (handlers e)) as Hret.
      destruct (Forall2_lookup_l _ _ _ _ _ Hret Hs) as (s1 & Hs1 & Hss).
      assert (Hlen1 : length s1 = S idx + n).
      { assert (length s = length s1) by (by eapply Forall2_length). lia. }
      destruct (IH (S idx) (h :: called) e1 s1 Hs1 Hlen1) as (called' & Hrun & Hcalled).
      subst e1. cbn [handlers maxBits closures calls] in Hrun, Hcalled.
      rewrite after_call_length in Hrun, Hcalled.
      rewrite (first_new_thinned [h] (HSet.values (drop (S idx) s))
                 (HSet.values (drop (S idx) s1))) in Hrun, Hcalled.
      2,4: by apply thinned_values, Forall2_drop.
      2,3: intros g Hg; apply list_elem_of_singleton in Hg as ->; by left.
      exists called'. split.
      * rewrite Hrun. cbn [fst snd flat_map]. rewrite after_calls_cons.
        by rewrite <- !app_assoc.
      * cbn [fst snd]. intros Hn.
        by rewrite (Hcalled Hn), reverse_cons, <- app_assoc.
    + exists called. split; [|done]. cbn [fst snd flat_map].
      by rewrite app_nil_r.
Qed.

Lemma emit_loop_spec code d n :
  forall bit called e,
  let tbl := handlers e in
  let r := deliver (length tbl) (first_new called (matching code bit n tbl)) in
  emit_loop n bit code d called e =
  (Emitter (maxBits e) (after_calls r.1 tbl) (closures e)
     (calls e ++ flat_map (events_of d code) r.1),
   match r.2 with
   | Normal => thrown_if (past_end (bit_set code) (length tbl) bit n)
   | c => c
   end).
Proof.
  induction n as [|n IH]; intros bit called e; cbn zeta.
  - simpl. by rewrite app_nil_r, emitter_eta.
  - rewrite past_end_cons. unfold matching. cbn [seq flat_map emit_loop].
    fold (matching code (S bit) n (handlers e)).
    destruct (bit_set code bit) eqn:Hbit.
    2:{ rewrite IH, andb_false_r. done. }
    unfold slot_values.
    destruct (handlers e !! bit) as [s|] eqn:Hs.
    + cbn [from_option]. pose proof (lookup_lt_Some _ _ _ Hs) as Hlt.
      rewrite bool_decide_eq_false_2, andb_false_l, orb_false_l by lia.
      destruct (emit_slot_spec code d bit (length s) 0 called e s Hs eq_refl)
        as (called' & Hrun & Hcalled).
      rewrite drop_0 in Hrun, Hcalled. rewrite Hrun.
      rewrite first_new_app, deliver_app.
      destruct (deliver (length (handlers e)) (first_new called (HSet.values s)))
        as [att [|x]] eqn:Hd; cbn [fst snd] in *; [|done].
      apply deliver_normal in Hd as ->. rewrite (Hcalled eq_refl).
      set (plan := first_new called (HSet.values s)).
      rewrite IH. cbn [handlers maxBits closures calls].
      rewrite after_calls_length.
      rewrite (first_new_thinned plan (matching code (S bit) n (handlers e))
                 (matching code (S bit) n (after_calls plan (handlers e)))).
      2: apply retired_matching, after_calls_retired.
      2: intros g Hg; apply elem_of_app; left; by apply elem_of_reverse.
      rewrite after_calls_app, flat_map_app, <- app_assoc. done.
    + cbn [from_option app]. pose proof (proj1 (lookup_ge_None _ _) Hs) as Hge.
      rewrite matching_past by lia.
      rewrite bool_decide_eq_true_2 by lia. simpl.
      by rewrite app_nil_r, emitter_eta.
Qed.

Theorem emit_spec code d hint e :
  let tbl := handlers e in
  let n := Z.to_nat (hint_or_default hint e) in
  let r := deliver (length tbl) (first_new [] (matching code 0 n tbl)) in
  emit code d hint e =
  (Emitter (maxBits e) (after_calls r.1 tbl) (closures e)
     (calls e ++ flat_map (events_of d code) r.1),
   match r.2 with
   | Normal => thrown_if (past_end (bit_set code) (length tbl) 0 n)
   | c => c
   end).
Proof. apply emit_loop_spec. Qed.

End EmitSpec.

(** ** Who is listening *)

Section Listening.

Lemma elem_of_values h (s : hset) : h ∈ HSet.values s <-> Some h ∈ s.
Proof.
  unfold HSet.values. rewrite list_elem_of_omap. split.
  - intros (x & Hx & Hid). simpl in Hid. by subst.
  - intros Hin. by exists (Some h).
Qed.

Lemma elem_of_slot_values h tbl i :
  h ∈ slot_values tbl i <-> listening h i tbl.
Proof.
  unfold slot_values, listening. destruct (tbl !! i) as [s|]; simpl.
  - rewrite elem_of_values. split; [by exists s|]. by intros (s' & [= <-] & ?).
  - rewrite elem_of_nil. split; [done|]. by intros (s' & ? & ?).
Qed.

Lemma elem_of_matching h code bit n tbl :
  h ∈ matching code bit n tbl <->
  exists i, bit <= i < bit + n /\ bit_set code i = true /\ listening h i tbl.
Proof.
  unfold matching. rewrite list_elem_of_In, in_flat_map. split.
  - intros (i & Hi & Hh). apply in_seq in Hi. exists i. split; [done|].
    destruct (bit_set code i); [|done]. split; [done|].
    by apply elem_of_slot_values, list_elem_of_In.
  - intros (i & Hi & Hbit & Hl). exists i. rewrite in_seq, Hbit. split; [done|].
    by apply list_elem_of_In, elem_of_slot_values.
Qed.

Lemma elem_of_add g h (s : hset) : Some g ∈ HSet.add h s <-> Some g ∈ s \/ g = h.
Proof.
  unfold HSet.add, HSet.has. case_bool_decide as Hin.
  - split; [by left|]. intros [?| ->]; done.
  - rewrite elem_of_app, list_elem_of_singleton. split.
    + intros [?|[= ->]]; [by left|by right].
    + intros [?| ->]; [by left|by right].
Qed.

Lemma elem_of_delete g h (s : hset) :
  Some g ∈ HSet.delete h s <-> Some g ∈ s /\ g <> h.
Proof.
  unfold HSet.delete. rewrite list_elem_of_fmap. split.
  - intros (x & Hx & Hin). case_decide as Hd; [done|]. subst x.
    split; [done|]. by intros ->.
  - intros [Hin Hne]. exists (Some g). split; [|done].
    rewrite decide_False; [done|]. by intros [= ->].
Qed.

Lemma add_idemp h (s : hset) : HSet.add h (HSet.add h s) = HSet.add h s.
Proof.
  unfold HSet.add at 1. unfold HSet.has.
  rewrite bool_decide_eq_true_2; [done|]. apply elem_of_add. by right.
Qed.

Lemma add_values h (s : hset) :
  HSet.has h s = false -> HSet.values (HSet.add h s) = HSet.values s ++ [h].
Proof.
  intros Hhas. unfold HSet.add, HSet.values. rewrite Hhas.
  by rewrite omap_app.
Qed.

Lemma delete_absent h (s : hset) : Some h ∉ s -> HSet.delete h s = s.
Proof.
  intros Hout. unfold HSet.delete.
  rewrite <- (list_fmap_id s) at 2. apply list_fmap_ext.
  intros i x Hx. case_decide as Hd; [|done]. subst x.
  destruct Hout. by eapply list_elem_of_lookup_2.
Qed.

Lemma listening_update_range g i f lo hi tbl :
  listening g i (update_range f lo hi tbl) <->
  exists s, tbl !! i = Some s /\ Some g ∈ (if bool_decide (lo <= i < hi) then f i s else s).
Proof.
  unfold listening. rewrite update_range_lookup. split.
  - intros (s' & Hs' & Hin). destruct (tbl !! i) as [s|]; [|done].
    injection Hs' as <-. by exists s.
  - intros (s & -> & Hin). eexists. split; [done|]. done.
Qed.

Lemma listening_after_call g i h tbl :
  listening g i (after_call h tbl) -> listening g i tbl.
Proof.
  destruct h as [f|c f hint]; cbn [after_call]; [done|].
  destruct (fn_throws f); [done|].
  rewrite listening_update_range. intros (s & Hs & Hin). exists s. split; [done|].
  case_bool_decide; [|done]. by apply elem_of_delete in Hin as [? _].
Qed.

Lemma listening_after_call_ne g i h tbl :
  g <> h -> listening g i tbl -> listening g i (after_call h tbl).
Proof.
  intros Hne. destruct h as [f|c f hint]; cbn [after_call]; [done|].
  destruct (fn_throws f); [done|].
  rewrite listening_update_range. intros (s & Hs & Hin). exists s. split; [done|].
  case_bool_decide; [|done]. by apply elem_of_delete.
Qed.

Lemma listening_after_calls g i hs tbl :
  listening g i (after_calls hs tbl) -> listening g i tbl.
Proof.
  revert tbl. induction hs as [|h hs IH]; intros tbl; [done|].
  rewrite after_calls_cons. intros Hl. by eapply listening_after_call, IH.
Qed.

Lemma listening_after_calls_ne g i hs tbl :
  g ∉ hs -> listening g i tbl -> listening g i (after_calls hs tbl).
Proof.
  revert tbl. induction hs as [|h hs IH]; intros tbl Hout Hl; [done|].
  rewrite after_calls_cons. apply not_elem_of_cons in Hout as [Hne Hout].
  apply IH; [done|]. by apply listening_after_call_ne.
Qed.

Lemma registered_after_calls g hs tbl :
  registered g (after_calls hs tbl) -> registered g tbl.
Proof. intros [i Hi]. exists i. by eapply listening_after_calls. Qed.

Lemma calm_after_calls hs tbl : calm tbl -> calm (after_calls hs tbl).
Proof.
  intros Hc h Hr. rewrite after_calls_length.
  by eapply Hc, registered_after_calls.
Qed.

End Listening.

Section Observing.
Context {T : Type}.
Implicit Types (e : BitFieldEmitter T) (d : T).

Lemma news_app e e' evs : calls e' = calls e ++ evs -> news e e' = evs.
Proof. intros Heq. unfold news. by rewrite Heq, drop_app_length. Qed.

Lemma emit_news code d hint e :
  news e (emit code d hint e).1 = flat_map (events_of d code) (attempted code hint e).
Proof. apply news_app. by rewrite emit_spec. Qed.

Lemma emit_handlers code d hint e :
  handlers (emit code d hint e).1 = after_calls (attempted code hint e) (handlers e).
Proof. by rewrite emit_spec. Qed.

Lemma emit_maxBits code d hint e : maxBits (emit code d hint e).1 = maxBits e.
Proof. by rewrite emit_spec. Qed.

Lemma attempted_prefix code hint e :
  attempted code hint e `prefix_of`
  first_new [] (matching code 0 (Z.to_nat (hint_or_default hint e)) (handlers e)).
Proof. apply deliver_prefix. Qed.

Lemma attempted_NoDup code hint e : NoDup (attempted code hint e).
Proof.
  destruct (attempted_prefix code hint e) as [k Hk].
  pose proof (first_new_NoDup [] (matching code 0 (Z.to_nat (hint_or_default hint e)) (handlers e))) as Hnd.
  rewrite Hk in Hnd. by apply list.NoDup_app in Hnd as [? _].
Qed.

Lemma attempted_listening code hint e h :
  h ∈ attempted code hint e ->
  exists i, i < Z.to_nat (hint_or_default hint e) /\ bit_set code i = true
            /\ listening h i (handlers e).
Proof.
  intros Hin. eapply elem_of_prefix in Hin; [|apply attempted_prefix].
  apply first_new_elem in Hin as [Hin _].
  apply elem_of_matching in Hin as (i & Hi & Hbit & Hl).
  exists i. split; [lia|done].
Qed.

Lemma dispatches_events d code hs :
  dispatches (flat_map (events_of d code) hs) = (fun h => Dispatch h d code) <$> hs.
Proof.
  induction hs as [|h hs IH]; [done|].
  cbn [flat_map fmap list_fmap]. unfold dispatches in *.
  rewrite list.filter_app, IH. f_equal.
  destruct h; done.
Qed.

Lemma dispatches_to_events d code hs h :
  NoDup hs ->
  dispatches_to h (flat_map (events_of d code) hs) =
  if decide (h ∈ hs) then [Dispatch h d code] else [].
Proof.
  induction 1 as [|g hs Hg _ IH]; [done|].
  cbn [flat_map]. unfold dispatches_to in *. rewrite list.filter_app, IH.
  destruct (decide (g = h)) as [->|Hne].
  - rewrite (decide_False (P := h ∈ hs)) by done.
    rewrite (decide_True (P := h ∈ h :: hs)) by left.
    rewrite app_nil_r. unfold events_of. rewrite filter_cons_True by done.
    destruct h; done.
  - assert (filter (fun ev : event T => dispatch_of ev = Some h) (events_of d code g) = []) as ->.
    { unfold events_of. rewrite filter_cons_False by (simpl; congruence).
      destruct g; done. }
    simpl. destruct (decide (h ∈ hs)) as [Hin|Hout].
    + rewrite decide_True by (by right). done.
    + rewrite decide_False; [done|]. rewrite not_elem_of_cons. by split.
Qed.

Lemma elem_of_events d code hs h :
  Dispatch h d code ∈ flat_map (events_of d code) hs <-> h ∈ hs.
Proof.
  rewrite list_elem_of_In, in_flat_map. split.
  - intros (g & Hg & Hin). apply list_elem_of_In in Hg.
    unfold events_of in Hin. destruct Hin as [[= ->]|Hin]; [done|].
    destruct g; [done|]. by destruct Hin.
  - intros Hin. exists h. split; [by apply list_elem_of_In|by left].
Qed.

Lemma runs_of_events_none d code hs f :
  (forall h, h ∈ hs -> target h <> f) ->
  runs_of f (flat_map (events_of d code) hs) = [].
Proof.
  induction hs as [|h hs IH]; intros Hall; [done|].
  cbn [flat_map]. unfold runs_of in *. rewrite list.filter_app, IH.
  2:{ intros g Hg. apply Hall. by right. }
  assert (target h <> f) as Hne by (apply Hall; left).
  rewrite app_nil_r. unfold events_of.
  destruct h as [g|c g hint]; simpl in Hne.
  - rewrite filter_cons_False; [done|]. simpl. congruence.
  - rewrite filter_cons_False by done.
    rewrite filter_cons_False; [done|]. simpl. congruence.
Qed.

Lemma runs_of_events_once d code hs f c hint :
  NoDup hs -> OnceHandler c f hint ∈ hs ->
  (forall h, h ∈ hs -> target h = f -> h = OnceHandler c f hint) ->
  runs_of f (flat_map (events_of d code) hs) =
  [Forward (OnceHandler c f hint) f d code].
Proof.
  intros Hnd Hin Honly.
  apply list_elem_of_split in Hin as (l1 & l2 & ->).
  apply list.NoDup_app in Hnd as (_ & Hdisj & Hnd2).
  apply list.NoDup_cons in Hnd2 as [Hout2 _].
  rewrite flat_map_app. cbn [flat_map]. unfold runs_of. rewrite !list.filter_app.
  fold (runs_of f (flat_map (events_of d code) l1)).
  fold (runs_of f (flat_map (events_of d code) l2)).
  rewrite !runs_of_events_none.
  - unfold events_of. rewrite filter_cons_False by done.
    rewrite filter_cons_True by done. done.
  - intros h Hh Ht. assert (h = OnceHandler c f hint) as ->; [|done].
    apply Honly; [|done]. apply elem_of_app. right. by right.
  - intros h Hh Ht. assert (h = OnceHandler c f hint) as ->.
    { apply Honly; [|done]. apply elem_of_app. by left. }
    eapply Hdisj; [done|]. left.
Qed.

Lemma deliver_all len hs :
  Forall (fun h => outcome len h = Normal) hs -> deliver len hs = (hs, Normal).
Proof.
  induction 1 as [|h hs Hh _ IH]; [done|]. simpl. by rewrite Hh, IH.
Qed.

End Observing.

Section Registration.
Context {T : Type}.
Implicit Types (e : BitFieldEmitter T) (d : T).

Lemma past_end_true p len bit n :
  past_end p len bit n = true <->
  exists j, bit <= j < bit + n /\ len <= j /\ p j = true.
Proof.
  unfold past_end. rewrite existsb_exists. split.
  - intros (j & Hin & Hj). apply in_seq in Hin.
    apply andb_true_iff in Hj as [Hlen Hp]. apply bool_decide_eq_true in Hlen.
    by exists j.
  - intros (j & Hin & Hlen & Hp). exists j. rewrite in_seq, Hp.
    by rewrite bool_decide_eq_true_2.
Qed.

Lemma past_end_ext p q len bit n :
  (forall j, bit <= j < bit + n -> p j = q j) ->
  past_end p len bit n = past_end q len bit n.
Proof.
  intros Hext. apply eq_true_iff_eq. rewrite !past_end_true.
  split; intros (j & Hj & Hlen & Hp); exists j; rewrite ?Hext in *; done.
Qed.

Lemma update_range_ext f g lo hi tbl :
  (forall j s, lo <= j < hi -> f j s = g j s) ->
  update_range f lo hi tbl = update_range g lo hi tbl.
Proof.
  intros Hext. apply list_eq. intros j. rewrite !update_range_lookup.
  destruct (tbl !! j) as [s|]; [simpl|done].
  case_bool_decide; [by rewrite Hext|done].
Qed.

Lemma update_range_compose f g lo hi tbl :
  update_range g lo hi (update_range f lo hi tbl) =
  update_range (fun j s => g j (f j s)) lo hi tbl.
Proof.
  apply list_eq. intros j. rewrite !update_range_lookup.
  destruct (tbl !! j) as [s|]; [simpl|done]. by case_bool_decide.
Qed.

Lemma update_range_id lo hi tbl : update_range (fun _ s => s) lo hi tbl = tbl.
Proof.
  apply list_eq. intros j. rewrite update_range_lookup.
  destruct (tbl !! j) as [s|]; [simpl|done]. by case_bool_decide.
Qed.

Lemma on_spec code h hint e :
  on code h hint e =
  (with_handlers e
     (update_range (on_slot code h) 0 (Z.to_nat (hint_or_default hint e)) (handlers e)),
   thrown_if (past_end (bit_set code) (length (handlers e)) 0
                (Z.to_nat (hint_or_default hint e)))).
Proof. unfold on. by rewrite on_loop_spec. Qed.

Lemma removeGroup_spec (it : iterable handler) hint e :
  removeGroup it hint e =
  (with_handlers e
     (update_range (fun j => delete_all (it j)) 0
        (Z.to_nat (hint_or_default hint e)) (handlers e)),
   thrown_if (past_end (fun j => bool_decide (it j <> [])) (length (handlers e)) 0
                (Z.to_nat (hint_or_default hint e)))).
Proof.
  unfold removeGroup. rewrite removeGroup_loop_spec. cbn [fst snd]. f_equal.
  - f_equal. apply update_range_ext. intros j s _. by rewrite Nat.sub_0_r.
  - f_equal. apply past_end_ext. intros j _. by rewrite Nat.sub_0_r.
Qed.


Lemma with_handlers_id e : with_handlers e (handlers e) = e.
Proof. by destruct e. Qed.

Lemma hint_with_handlers hint e tbl :
  hint_or_default hint (with_handlers e tbl) = hint_or_default hint e.
Proof. done. Qed.

Lemma with_handlers_twice e tbl tbl' :
  with_handlers (with_handlers e tbl) tbl' = with_handlers e tbl'.
Proof. done. Qed.



(** C9: subscribing is idempotent: a second [on(code, h, bitsHint)] right
    after the first leaves the emitter, and the completion, as the first
    one left them. *)
Theorem on_idempotent code h hint e :
  on code h hint (on code h hint e).1 = on code h hint e.
Proof.
  rewrite !on_spec. cbn [fst handlers with_handlers].
  rewrite hint_with_handlers, with_handlers_twice.
  rewrite update_range_length, update_range_compose.
  f_equal. f_equal. apply update_range_ext. intros j s _.
  unfold on_slot. destruct (bit_set code j); [apply add_idemp|done].
Qed.


Lemma bit_set_agree code code2 (hint : Z) i :
  (forall k : Z, (0 <= k < hint)%Z -> Z.testbit code k = Z.testbit code2 k) ->
  i < Z.to_nat hint -> bit_set code i = bit_set code2 i.
Proof.
  intros Hagree Hi. rewrite !bit_set_testbit. apply Hagree.
  pose proof (Z.mod_pos_bound (Z.of_nat i) 32 ltac:(lia)).
  pose proof (Z.mod_le (Z.of_nat i) 32 ltac:(lia) ltac:(lia)). lia.
Qed.

(** C5 (amended): [on(code, handler, bitsHint)] touches no slot outside
    [0, bitsHint): slot [i] gains [handler] when [i < bitsHint] and
    [code & (1 << i)] is non-zero, and is left alone otherwise; the table
    keeps its length.  Bits of [code] at position [bitsHint] or above play
    no part.  With [bitsHint] within the table the call returns normally
    for every [code]; past the table it raises a [TypeError] exactly when
    [code & (1 << i)] is non-zero for some [i] from the table's length up
    to [bitsHint]. *)
Theorem on_range code h hint e :
  let n := Z.to_nat (hint_or_default hint e) in
  let r := on code h hint e in
  length (handlers r.1) = length (handlers e)
  /\ (forall i (s : hset), handlers e !! i = Some s ->
        handlers r.1 !! i =
        Some (if bool_decide (i < n) && bit_set code i then HSet.add h s else s))
  /\ (n <= length (handlers e) -> r.2 = Normal)
  /\ (r.2 = Throw TypeError <->
        exists i, length (handlers e) <= i < n /\ bit_set code i = true)
  /\ (r.2 = Normal \/ r.2 = Throw TypeError)
  /\ (forall code2,
        (forall k : Z, (0 <= k < hint_or_default hint e)%Z ->
                       Z.testbit code k = Z.testbit code2 k) ->
        on code2 h hint e = r).
Proof.
  cbn zeta. rewrite on_spec. cbn [fst snd handlers with_handlers].
  split; [apply update_range_length|]. split.
  { intros i s Hs. rewrite update_range_lookup, Hs. cbn. f_equal.
    unfold on_slot. destruct (decide (i < Z.to_nat (hint_or_default hint e))).
    - rewrite !bool_decide_eq_true_2 by lia. done.
    - rewrite !bool_decide_eq_false_2 by lia. done. }
  split; [intros Hn; by rewrite past_end_inside by lia|].
  split.
  { destruct (past_end _ _ _ _) eqn:Hp; cbn [thrown_if].
    - apply past_end_true in Hp as (j & Hj & Hlen & Hbit).
      split; [|done]. intros _. exists j. split; [lia|done].
    - split; [done|]. intros (j & Hj & Hbit).
      apply not_true_iff_false in Hp. destruct Hp. apply past_end_true.
      exists j. split; [lia|]. split; [lia|done]. }
  split; [destruct (past_end _ _ _ _); [by right|by left]|].
  intros code2 Hagree. rewrite on_spec. f_equal.
  - f_equal. apply update_range_ext. intros j s Hj. unfold on_slot.
    rewrite (bit_set_agree code code2 (hint_or_default hint e)) by (done || lia).
    done.
  - f_equal. apply past_end_ext. intros j Hj. symmetry.
    apply (bit_set_agree code code2 (hint_or_default hint e)); [done|lia].
Qed.

Lemma emits_spec es e :
  exists evs hs,
    calls (emits es e) = calls e ++ evs
    /\ handlers (emits es e) = after_calls hs (handlers e)
    /\ from_registered (handlers e) evs.
Proof.
  revert e. induction es as [|[[code d] hint] es IH]; intros e.
  - exists [], []. split; [by rewrite app_nil_r|]. split; [done|].
    intros ev Hev. by apply elem_of_nil in Hev.
  - unfold emits in *. cbn [foldl fst snd].
    destruct (IH (emit code d hint e).1) as (evs & hs & Hcalls & Htbl & Hfrom).
    rewrite emit_handlers in Htbl, Hfrom.
    exists (flat_map (events_of d code) (attempted code hint e) ++ evs),
           (attempted code hint e ++ hs).
    split; [|split].
    + rewrite Hcalls, emit_spec. cbn [fst calls]. by rewrite <- app_assoc.
    + by rewrite Htbl, after_calls_app.
    + intros ev Hev. apply elem_of_app in Hev as [Hev|Hev].
      * apply list_elem_of_In, in_flat_map in Hev as (h & Hh & Hev).
        apply list_elem_of_In in Hh, Hev.
        apply attempted_listening in Hh as (i & _ & _ & Hl).
        exists h, d, code. split; [by exists i|done].
      * destruct (Hfrom ev Hev) as (h & d' & code' & Hr & Hin).
        exists h, d', code'. split; [by eapply registered_after_calls|done].
Qed.

Lemma from_registered_dispatches h tbl (evs : list (event T)) :
  from_registered tbl evs -> ~ registered h tbl -> dispatches_to h evs = [].
Proof.
  intros Hfrom Hno. unfold dispatches_to.
  induction evs as [|ev evs IH]; [done|].
  rewrite filter_cons_False.
  - apply IH. intros ev' Hev'. apply Hfrom. by right.
  - intros Hd. destruct (Hfrom ev ltac:(left)) as (g & d & code & Hr & Hin).
    unfold events_of in Hin. apply elem_of_cons in Hin as [->|Hin].
    + cbn in Hd. by injection Hd as ->.
    + destruct g; [by apply elem_of_nil in Hin|].
      apply list_elem_of_singleton in Hin as ->. done.
Qed.

Lemma from_registered_runs f tbl (evs : list (event T)) :
  from_registered tbl evs -> (forall g, registered g tbl -> target g <> f) ->
  runs_of f evs = [].
Proof.
  intros Hfrom Hno. unfold runs_of.
  induction evs as [|ev evs IH]; [done|].
  rewrite filter_cons_False.
  - apply IH. intros ev' Hev'. apply Hfrom. by right.
  - intros Hd. destruct (Hfrom ev ltac:(left)) as (g & d & code & Hr & Hin).
    apply Hno in Hr. unfold events_of in Hin. apply elem_of_cons in Hin as [->|Hin].
    + destruct g; cbn in Hd, Hr; congruence.
    + destruct g; [by apply elem_of_nil in Hin|].
      apply list_elem_of_singleton in Hin as ->. cbn in Hd, Hr. congruence.
Qed.

Lemma not_listening_removed h i n tbl :
  i < n -> ~ listening h i (update_range (fun _ => HSet.delete h) 0 n tbl).
Proof.
  intros Hi. rewrite listening_update_range. intros (s & Hs & Hin).
  rewrite bool_decide_eq_true_2 in Hin by lia.
  by apply elem_of_delete in Hin as [_ ?].
Qed.

(** C4: [remove(h)] with the default [bitsHint] never raises; it empties
    [h]'s entry in every slot and leaves slots without [h] as they were
    (the whole emitter, if [h] was registered nowhere).  Afterwards no
    [emit], whatever its code and [bitsHint], calls [h]; and if no other
    registered handler forwards to the function behind [h], that function
    does not run at all. *)
Theorem remove_complete h e (later : list (Z * T * option Z)) :
  table_ok e ->
  let r := remove h None e in
  r.2 = Normal
  /\ ~ registered h (handlers r.1)
  /\ (forall i (s : hset), handlers e !! i = Some s -> Some h ∉ s ->
        handlers r.1 !! i = Some s)
  /\ (~ registered h (handlers e) -> r.1 = e)
  /\ dispatches_to h (news r.1 (emits later r.1)) = []
  /\ ((forall g, registered g (handlers e) -> g <> h -> target g <> target h) ->
      runs_of (target h) (news r.1 (emits later r.1)) = []).
Proof.
  intros Hok. cbn zeta. rewrite remove_spec. cbn [fst snd hint_or_default default].
  unfold table_ok in Hok. rewrite <- Hok.
  set (tbl' := update_range _ _ _ _).
  assert (Hgone : ~ registered h tbl').
  { intros [i Hl]. assert (i < length (handlers e)).
    { destruct Hl as (s & Hs & _). apply lookup_lt_Some in Hs.
      subst tbl'. by rewrite update_range_length in Hs. }
    by eapply not_listening_removed. }
  split; [by rewrite past_end_inside by lia|]. split; [done|].
  split; [|split].
  - intros i s Hs Hout. cbn [handlers with_handlers].
    subst tbl'. rewrite update_range_lookup, Hs. cbn.
    case_bool_decide; by rewrite ?delete_absent.
  - intros Hno. rewrite <- (with_handlers_id e) at 2. f_equal.
    subst tbl'. rewrite <- (update_range_id 0 (length (handlers e)) (handlers e)) at 3.
    apply list_eq. intros j. rewrite !update_range_lookup.
    destruct (handlers e !! j) as [s|] eqn:Hs; [cbn|done].
    case_bool_decide; [|done]. rewrite delete_absent; [done|].
    intros Hin. apply Hno. exists j, s. done.
  - destruct (emits_spec later (with_handlers e tbl')) as (evs & hs & Hcalls & _ & Hfrom).
    rewrite (news_app _ _ _ Hcalls). cbn [handlers with_handlers] in Hfrom.
    split; [by eapply from_registered_dispatches|].
    intros Halone. eapply from_registered_runs; [done|].
    intros g Hg. destruct (decide (g = h)) as [->|Hne]; [done|].
    apply Halone; [|done]. destruct Hg as [i Hl]. exists i.
    subst tbl'. apply listening_update_range in Hl as (s & Hs & Hin).
    exists s. split; [done|]. case_bool_decide; [|done].
    by apply elem_of_delete in Hin as [? _].
Qed.

End Registration.

Section Publishing.
Context {T : Type}.
Implicit Types (e : BitFieldEmitter T) (d : T).

Lemma emit_normal_attempted code d hint e :
  (emit code d hint e).2 = Normal ->
  attempted code hint e =
  first_new [] (matching code 0 (Z.to_nat (hint_or_default hint e)) (handlers e)).
Proof.
  rewrite emit_spec. cbn [snd]. unfold attempted.
  destruct (deliver _ _) as [att [|x]] eqn:Hd; [|done].
  intros _. by apply deliver_normal in Hd.
Qed.

Lemma deliver_reaches len hs h :
  h ∈ hs -> (forall g, g ∈ hs -> g <> h -> outcome len g = Normal) ->
  h ∈ (deliver len hs).1.
Proof.
  induction hs as [|g hs IH]; intros Hin Hall; [by apply elem_of_nil in Hin|].
  cbn [deliver]. destruct (decide (g = h)) as [->|Hne].
  - destruct (outcome len h); cbn [fst]; left.
  - rewrite Hall by (done || left). cbn [fst]. right.
    apply elem_of_cons in Hin as [->|Hin]; [done|].
    apply IH; [done|]. intros g' Hg'. apply Hall. by right.
Qed.

Lemma emit_normal_dispatches code d hint e e' h i :
  emit code d hint e = (e', Normal) ->
  i < Z.to_nat (hint_or_default hint e) -> bit_set code i = true ->
  listening h i (handlers e) ->
  dispatches_to h (news e e') = [Dispatch h d code].
Proof.
  intros Hemit Hi Hbit Hl.
  assert (e' = (emit code d hint e).1) as -> by (by rewrite Hemit).
  rewrite emit_news, dispatches_to_events by apply attempted_NoDup.
  rewrite decide_True; [done|].
  rewrite (emit_normal_attempted code d) by (by rewrite Hemit).
  apply first_new_elem. split; [|apply not_elem_of_nil].
  apply elem_of_matching. exists i. split; [lia|done].
Qed.

Lemma listening_after_calls_fn f i hs tbl :
  listening (Fn f) i tbl -> listening (Fn f) i (after_calls hs tbl).
Proof.
  revert tbl. induction hs as [|h hs IH]; intros tbl Hl; [done|].
  rewrite after_calls_cons. apply IH.
  destruct h as [g|c g hint]; [done|]. by apply listening_after_call_ne.
Qed.

(** C7: [emit] calls the handlers found on the set bits of [code], slots
    taken in ascending order and each slot in the order of its entries,
    leaving out a handler it has already called; every call passes [data]
    and the whole [code].  When [emit] returns normally these are all its
    calls, and in any case its calls are an initial part of that list.
    The entries of a slot are in insertion order: [add] puts a new handler
    last. *)
Theorem emit_order code d hint e :
  let plan := first_new []
    (matching code 0 (Z.to_nat (hint_or_default hint e)) (handlers e)) in
  let r := emit code d hint e in
  dispatches (news e r.1) `prefix_of` ((fun h => Dispatch h d code) <$> plan)
  /\ (r.2 = Normal ->
      dispatches (news e r.1) = (fun h => Dispatch h d code) <$> plan)
  /\ (forall h (s : hset), HSet.has h s = false ->
        HSet.values (HSet.add h s) = HSet.values s ++ [h]).
Proof.
  cbn zeta. rewrite emit_news, dispatches_events. split; [|split].
  - destruct (attempted_prefix code hint e) as [k Hk].
    rewrite Hk, fmap_app. by eexists.
  - intros Hn. by rewrite (emit_normal_attempted code d).
  - apply add_values.
Qed.

(** C8: when the handlers [emit] is about to call are [pre], then [h],
    then [post], the calls of [pre] complete normally and the function
    behind [h] throws, [emit] completes with that throw, having called
    [pre] and [h] in order and none of [post]. *)
Theorem emit_fail_fast code d hint e pre h post :
  first_new [] (matching code 0 (Z.to_nat (hint_or_default hint e)) (handlers e))
    = pre ++ h :: post ->
  Forall (fun g => outcome (length (handlers e)) g = Normal) pre ->
  fn_throws (target h) = true ->
  let r := emit code d hint e in
  r.2 = Throw (Raised (target h))
  /\ dispatches (news e r.1) = (fun g => Dispatch g d code) <$> (pre ++ [h])
  /\ forall g, g ∈ post -> dispatches_to g (news e r.1) = [].
Proof.
  intros Hplan Hpre Hthrow. cbn zeta.
  assert (Hd : deliver (length (handlers e)) (pre ++ h :: post)
               = (pre ++ [h], Throw (Raised (target h)))).
  { rewrite deliver_app, deliver_all by done. cbn [deliver].
    assert (outcome (length (handlers e)) h = Throw (Raised (target h))) as ->
      by (destruct h; cbn in *; by rewrite Hthrow).
    done. }
  assert (Hatt : attempted code hint e = pre ++ [h])
    by (unfold attempted; by rewrite Hplan, Hd).
  rewrite emit_news, Hatt, dispatches_events.
  split; [|split; [done|]].
  - rewrite emit_spec. cbn [snd]. by rewrite Hplan, Hd.
  - intros g Hg. rewrite dispatches_to_events by (rewrite <- Hatt; apply attempted_NoDup).
    rewrite decide_False; [done|]. intros Hin.
    pose proof (first_new_NoDup [] (matching code 0 (Z.to_nat (hint_or_default hint e)) (handlers e))) as Hnd.
    rewrite Hplan in Hnd. apply list.NoDup_app in Hnd as (_ & Hdisj & Hnd).
    apply list.NoDup_cons in Hnd as [Hh _].
    apply elem_of_app in Hin as [Hin|Hin].
    + eapply Hdisj; [done|]. by right.
    + apply list_elem_of_singleton in Hin as ->. done.
Qed.

(** C2: a handler listening on a set bit of [code], on however many other
    set bits it also listens, is called exactly once by an [emit] that
    returns normally, with [data] and [code].  What [emit] has already
    called is forgotten between calls: a client function still registered
    is called once again by the next [emit]. *)
Theorem emit_dedup code d hint e e' h i :
  emit code d hint e = (e', Normal) ->
  i < Z.to_nat (hint_or_default hint e) -> bit_set code i = true ->
  listening h i (handlers e) ->
  dispatches_to h (news e e') = [Dispatch h d code]
  /\ forall f d2 e2, h = Fn f -> emit code d2 hint e' = (e2, Normal) ->
       dispatches_to h (news e' e2) = [Dispatch h d2 code].
Proof.
  intros Hemit Hi Hbit Hl. split; [by eapply emit_normal_dispatches|].
  intros f d2 e2 -> Hemit2.
  assert (e' = (emit code d hint e).1) as He' by (by rewrite Hemit).
  eapply emit_normal_dispatches; [done| |done|].
  - unfold hint_or_default in *. by rewrite He', emit_maxBits.
  - rewrite He', emit_handlers. by apply listening_after_calls_fn.
Qed.

(** C10: [remove(h, bitsHint)] with [bitsHint] below [maxBits] returns
    normally and leaves every slot from [bitsHint] up as it was; a handler
    listening on such a bit is still called, once, by an [emit] whose code
    has that bit and that returns normally. *)
Theorem remove_hint_frame h (hint : Z) e :
  (hint < maxBits e)%Z -> table_ok e ->
  let r := remove h (Some hint) e in
  r.2 = Normal
  /\ (forall i, Z.to_nat hint <= i -> handlers r.1 !! i = handlers e !! i)
  /\ forall i code d e', Z.to_nat hint <= i -> listening h i (handlers e) ->
       bit_set code i = true -> emit code d None r.1 = (e', Normal) ->
       dispatches_to h (news r.1 e') = [Dispatch h d code].
Proof.
  intros Hhint Hok. cbn zeta. rewrite remove_spec.
  change (hint_or_default (Some hint) e) with hint.
  cbn [fst snd]. unfold table_ok in Hok.
  assert (Hframe : forall i, Z.to_nat hint <= i ->
    update_range (fun _ => HSet.delete h) 0 (Z.to_nat hint) (handlers e) !! i
    = handlers e !! i).
  { intros i Hi. rewrite update_range_lookup.
    destruct (handlers e !! i); [cbn|done].
    by rewrite bool_decide_eq_false_2 by lia. }
  split; [by rewrite past_end_inside by lia|]. split; [done|].
  intros i code d e' Hi Hl Hbit Hemit.
  eapply emit_normal_dispatches; [done| |done|].
  - change (hint_or_default None (with_handlers e ?t)) with (maxBits e).
    destruct Hl as (s & Hs & _). apply lookup_lt_Some in Hs. lia.
  - cbn [handlers with_handlers]. unfold listening. by rewrite Hframe.
Qed.

Lemma bit_set_mod code i : bit_set code (i mod 32) = bit_set code i.
Proof.
  rewrite !bit_set_testbit. f_equal.
  rewrite Nat2Z.inj_mod. by rewrite Z.mod_mod.
Qed.

Lemma overlap_and code code' n :
  32 <= n -> overlap code code' n <-> JS.and code code' <> 0%Z.
Proof.
  intros Hn.
  assert (JS.and code code' <> 0%Z <-> JS.truthy (JS.and code code') = true) as ->.
  { unfold JS.truthy. rewrite negb_true_iff, Z.eqb_neq. done. }
  rewrite and_truthy_bits. split.
  - intros (i & Hi & H1 & H2). exists (i mod 32).
    rewrite !bit_set_mod. split; [|done]. apply Nat.mod_upper_bound. lia.
  - intros (i & Hi & H1 & H2). exists i. split; [lia|done].
Qed.

Lemma listening_on g h code i n tbl :
  listening g i (update_range (on_slot code h) 0 n tbl) <->
  listening g i tbl
  \/ (g = h /\ i < n /\ i < length tbl /\ bit_set code i = true).
Proof.
  rewrite listening_update_range. unfold on_slot. split.
  - intros (s & Hs & Hin). case_bool_decide as Hr.
    + destruct (bit_set code i) eqn:Hbit.
      * apply elem_of_add in Hin as [Hin| ->]; [left; by exists s|].
        right. apply lookup_lt_Some in Hs. repeat split; [lia|done].
      * left. by exists s.
    + left. by exists s.
  - intros [(s & Hs & Hin)|(-> & Hi & Hlen & Hbit)].
    + exists s. split; [done|]. case_bool_decide; [|done].
      destruct (bit_set code i); [|done]. apply elem_of_add. by left.
    + destruct (lookup_lt_is_Some_2 tbl i Hlen) as [s Hs].
      exists s. split; [done|]. rewrite bool_decide_eq_true_2 by lia.
      rewrite Hbit. apply elem_of_add. by right.
Qed.

(** C1 (amended): on an emitter whose registered handlers return normally
    and where [h] is not yet registered, after [on(code, h)] the call
    [emit(code', data)] calls [h] (once, with [data] and [code']) when
    [code] and [code'] share a set bit below [maxBits], and does not call
    it otherwise.  From [maxBits = 32] on, sharing such a bit is the same
    as [code & code'] being non-zero. *)
Theorem on_then_emit code code' h d e :
  table_ok e -> calm (handlers e) -> ~ registered h (handlers e) ->
  let e1 := (on code h None e).1 in
  let e2 := (emit code' d None e1).1 in
  (on code h None e).2 = Normal
  /\ (overlap code code' (Z.to_nat (maxBits e)) ->
      dispatches_to h (news e1 e2) = [Dispatch h d code'])
  /\ (~ overlap code code' (Z.to_nat (maxBits e)) ->
      dispatches_to h (news e1 e2) = [])
  /\ ((32 <= maxBits e)%Z ->
      (overlap code code' (Z.to_nat (maxBits e)) <-> JS.and code code' <> 0%Z)).
Proof.
  intros Hok Hcalm Hfresh. cbn zeta. unfold table_ok in Hok.
  rewrite on_spec. cbn [fst snd].
  change (hint_or_default None e) with (maxBits e). rewrite <- Hok.
  set (tbl1 := update_range _ _ _ _). set (e1 := with_handlers e tbl1).
  assert (Hlen1 : length tbl1 = length (handlers e)) by apply update_range_length.
  assert (Hn1 : Z.to_nat (hint_or_default None e1) = length (handlers e))
    by (by rewrite Hok).
  rewrite emit_news, dispatches_to_events by apply attempted_NoDup.
  split; [by rewrite past_end_inside by lia|]. split; [|split].
  - intros (i & Hi & Hbit & Hbit'). rewrite decide_True; [done|].
    apply deliver_reaches.
    + apply first_new_elem. split; [|apply not_elem_of_nil].
      apply elem_of_matching. exists i. rewrite Hn1. split; [lia|].
      split; [done|]. apply listening_on. right. repeat split; done.
    + intros g Hg Hne. apply first_new_elem in Hg as [Hg _].
      apply elem_of_matching in Hg as (j & _ & _ & Hl).
      apply listening_on in Hl as [Hl|[-> _]]; [|done].
      cbn [handlers e1 with_handlers]. rewrite Hlen1. apply Hcalm. by exists j.
  - intros Hno. rewrite decide_False; [done|]. intros Hin.
    apply attempted_listening in Hin as (i & Hi & Hbit' & Hl).
    apply listening_on in Hl as [Hl|(_ & Hi' & _ & Hbit)].
    + apply Hfresh. by exists i.
    + apply Hno. exists i. done.
  - intros H32. apply overlap_and. lia.
Qed.


Lemma table_ok_emit code d hint e : table_ok e -> table_ok (emit code d hint e).1.
Proof.
  unfold table_ok. rewrite emit_handlers, emit_maxBits, after_calls_length. done.
Qed.

Lemma emits_maxBits es e : maxBits (emits es e) = maxBits e.
Proof.
  revert e. unfold emits. induction es as [|x es IH]; intros e; [done|].
  cbn [foldl]. by rewrite IH, emit_maxBits.
Qed.

Lemma armed_quiet_emit a code c d hint e :
  armed a code e ->
  (forall i, i < length (handlers e) -> bit_set code i = true -> bit_set c i = false) ->
  armed a code (emit c d hint e).1
  /\ runs_of (target a) (news e (emit c d hint e).1) = [].
Proof.
  intros (Hok & Hcalm & Honly & Hbits) Hquiet.
  assert (Hout : a ∉ attempted c hint e).
  { intros Hin. apply attempted_listening in Hin as (i & _ & Hbit & Hl).
    apply Hbits in Hl as [Hi Hcode]. by rewrite (Hquiet i) in Hbit. }
  split.
  - split; [by apply table_ok_emit|]. rewrite emit_handlers.
    split; [by apply calm_after_calls|]. split.
    + intros g Hg. apply Honly. by eapply registered_after_calls.
    + intros i. rewrite after_calls_length, <- Hbits. split.
      * apply listening_after_calls.
      * by apply listening_after_calls_ne.
  - rewrite emit_news. apply runs_of_events_none. intros h Hh Ht.
    assert (h = a) as ->; [|done]. apply Honly; [|done].
    apply attempted_listening in Hh as (i & _ & _ & Hl). by exists i.
Qed.

Lemma armed_quiet_emits a code (es : list (Z * T * option Z)) e :
  armed a code e ->
  Forall (fun x => forall i, i < length (handlers e) ->
                     bit_set code i = true -> bit_set x.1.1 i = false) es ->
  exists evs,
    calls (emits es e) = calls e ++ evs
    /\ runs_of (target a) evs = []
    /\ armed a code (emits es e).
Proof.
  revert e. induction es as [|[[c d] hint] es IH]; intros e Harmed Hq.
  - exists []. by rewrite app_nil_r.
  - inversion_clear Hq as [|? ? Hc Hq']. cbn [fst] in Hc.
    destruct (armed_quiet_emit a code c d hint e Harmed Hc) as [Harmed1 Hruns1].
    destruct (IH (emit c d hint e).1 Harmed1) as (evs & Hcalls & Hruns & Harmed2).
    { by rewrite emit_handlers, after_calls_length. }
    exists (news e (emit c d hint e).1 ++ evs).
    unfold emits in *. cbn [foldl fst snd]. split; [|split; [|done]].
    + rewrite Hcalls, emit_news, emit_spec. cbn [fst calls].
      by rewrite <- app_assoc.
    + unfold runs_of in *. by rewrite list.filter_app, Hruns1, Hruns.
Qed.

Lemma after_calls_unregisters c f hint hs tbl :
  fn_throws f = false -> length tbl <= Z.to_nat hint ->
  OnceHandler c f hint ∈ hs ->
  ~ registered (OnceHandler c f hint) (after_calls hs tbl).
Proof.
  intros Hf. revert tbl.
  induction hs as [|h hs IH]; intros tbl Hlen Hin; [by apply elem_of_nil in Hin|].
  rewrite after_calls_cons.
  destruct (decide (h = OnceHandler c f hint)) as [->|Hne].
  - intros Hr. apply registered_after_calls in Hr as [i Hl].
    cbn [after_call] in Hl. rewrite Hf in Hl.
    assert (i < length tbl).
    { destruct Hl as (s & Hs & _). apply lookup_lt_Some in Hs.
      by rewrite update_range_length in Hs. }
    eapply not_listening_removed; [|done]. lia.
  - apply IH; [by rewrite after_call_length|].
    apply elem_of_cons in Hin as [?|?]; done.
Qed.

Lemma armed_firing_emit c f code code' d hint e i :
  let a := OnceHandler c f (maxBits e) in
  armed a code e -> fn_throws f = false ->
  i < Z.to_nat (hint_or_default hint e) -> i < length (handlers e) ->
  bit_set code i = true -> bit_set code' i = true ->
  let e2 := (emit code' d hint e).1 in
  runs_of f (news e e2) = [Forward a f d code']
  /\ ~ registered a (handlers e2)
  /\ (forall g, registered g (handlers e2) -> target g <> f).
Proof.
  intros a (Hok & Hcalm & Honly & Hbits) Hf Hi Hlen Hbit Hbit'. cbn zeta.
  set (plan := first_new [] (matching code' 0 (Z.to_nat (hint_or_default hint e)) (handlers e))).
  assert (Hatt : attempted code' hint e = plan).
  { unfold attempted. fold plan. rewrite deliver_all; [done|].
    apply list.Forall_forall. intros g Hg. apply Hcalm.
    apply first_new_elem in Hg as [Hg _].
    apply elem_of_matching in Hg as (j & _ & _ & Hl). by exists j. }
  assert (Hin : a ∈ plan).
  { apply first_new_elem. split; [|apply not_elem_of_nil].
    apply elem_of_matching. exists i. split; [lia|]. split; [done|].
    by apply Hbits. }
  assert (Hgone : ~ registered a (after_calls plan (handlers e))).
  { apply after_calls_unregisters; [done| |done]. unfold table_ok in Hok. lia. }
  rewrite emit_news, emit_handlers, Hatt. split; [|split; [done|]].
  - apply runs_of_events_once; [apply first_new_NoDup|done|].
    intros g Hg Ht. apply Honly; [|done].
    apply first_new_elem in Hg as [Hg _].
    apply elem_of_matching in Hg as (j & _ & _ & Hl). by exists j.
  - intros g Hg Ht. apply Hgone.
    assert (g = a) as <-; [|done].
    apply Honly; [|done]. by eapply registered_after_calls.
Qed.

Lemma once_armed code f e :
  table_ok e -> calm (handlers e) -> fn_throws f = false ->
  (forall g, registered g (handlers e) -> target g <> f) ->
  (once code f None e).2 = Normal
  /\ armed (OnceHandler (closures e) f (maxBits e)) code (once code f None e).1.
Proof.
  intros Hok Hcalm Hf Hnone. unfold once. rewrite on_spec.
  change (hint_or_default None e) with (maxBits e).
  cbn [hint_or_default default handlers maxBits fst snd with_handlers].
  change (id (maxBits e)) with (maxBits e).
  unfold table_ok in Hok. rewrite <- Hok.
  set (a := OnceHandler _ _ _). set (tbl1 := update_range _ _ _ _).
  assert (Hlen1 : length tbl1 = length (handlers e)) by apply update_range_length.
  split; [by rewrite past_end_inside by lia|].
  unfold armed. cbn [handlers maxBits with_handlers].
  split; [|split; [|split]].
  - unfold table_ok. cbn [handlers maxBits with_handlers]. lia.
  - cbn [handlers]. intros g [j Hl]. rewrite Hlen1.
    apply listening_on in Hl as [Hl|(-> & _)]; [apply Hcalm; by exists j|].
    cbn [outcome a]. rewrite Hf, past_end_inside by lia. done.
  - cbn [handlers]. intros g [j Hl] Ht.
    apply listening_on in Hl as [Hl|(-> & _)]; [|done].
    destruct (Hnone g); [by exists j|done].
  - cbn [handlers]. intros i. rewrite Hlen1. split.
    + intros Hl. apply listening_on in Hl as [Hl|(_ & _ & Hi & Hbit)]; [|done].
      destruct (Hnone a); [by exists i|done].
    + intros [Hi Hbit]. apply listening_on. right. repeat split; done.
Qed.

(** C3: on an emitter whose registered handlers return normally and none
    of which runs [f], register [f] with [once(code, f)], [f] returning
    normally.  Publishes whose code shares no bit with [code] do not run
    [f]; the first publish whose code does runs it exactly once, with that
    publish's data and code, and leaves its [onceHandler] in no slot; and
    no later publish, whatever its code and [bitsHint], runs [f] again. *)
Theorem once_fires_once code f e
    (quiet : list (Z * T * option Z)) code' d hint i
    (later : list (Z * T * option Z)) :
  table_ok e -> calm (handlers e) -> fn_throws f = false ->
  (forall g, registered g (handlers e) -> target g <> f) ->
  Forall (fun x => forall j, j < Z.to_nat (maxBits e) ->
                     bit_set code j = true -> bit_set x.1.1 j = false) quiet ->
  i < Z.to_nat (hint_or_default hint e) -> i < Z.to_nat (maxBits e) ->
  bit_set code i = true -> bit_set code' i = true ->
  let a := OnceHandler (closures e) f (maxBits e) in
  let e1 := (once code f None e).1 in
  let e2 := (emit code' d hint (emits quiet e1)).1 in
  let e3 := emits later e2 in
  (once code f None e).2 = Normal
  /\ runs_of f (news e1 e3) = [Forward a f d code']
  /\ runs_of f (news e2 e3) = []
  /\ ~ registered a (handlers e2).
Proof.
  intros Hok Hcalm Hf Hnone Hquiet Hi Hi' Hbit Hbit'. cbn zeta.
  destruct (once_armed code f e Hok Hcalm Hf Hnone) as [Hnormal Harmed].
  set (e1 := (once code f None e).1) in *.
  assert (Hmax1 : maxBits e1 = maxBits e) by done.
  assert (Hlen1 : length (handlers e1) = Z.to_nat (maxBits e)).
  { destruct Harmed as [Hok1 _]. unfold table_ok in Hok1. by rewrite Hok1, Hmax1. }
  destruct (armed_quiet_emits _ code quiet e1 Harmed) as (evs1 & Hcalls1 & Hruns1 & Harmed1).
  { by rewrite Hlen1. }
  cbn [target] in Hruns1.
  set (e1' := emits quiet e1) in *.
  assert (Hmax1' : maxBits e1' = maxBits e) by (subst e1'; by rewrite emits_maxBits).
  assert (Hlen1' : length (handlers e1') = Z.to_nat (maxBits e)).
  { destruct Harmed1 as [Hok1' _]. unfold table_ok in Hok1'. by rewrite Hok1', Hmax1'. }
  rewrite <- Hmax1' in Harmed1.
  destruct (armed_firing_emit (closures e) f code code' d hint e1' i Harmed1 Hf)
    as (Hruns2 & Hgone & Hnone2); [|lia|done|done|].
  { unfold hint_or_default in *. by rewrite Hmax1'. }
  rewrite Hmax1' in Hruns2, Hgone.
  set (e2 := (emit code' d hint e1').1) in *.
  destruct (emits_spec later e2) as (evs3 & hs3 & Hcalls3 & _ & Hfrom3).
  assert (Hruns3 : runs_of f evs3 = []) by (by eapply from_registered_runs).
  assert (Hcalls2 : calls e2 = calls e1' ++ news e1' e2).
  { subst e2. by rewrite emit_news, emit_spec. }
  split; [done|]. split; [|split; [|done]].
  - rewrite (news_app e1 _ (evs1 ++ news e1' e2 ++ evs3)).
    + unfold runs_of in *. by rewrite !list.filter_app, Hruns1, Hruns2, Hruns3.
    + by rewrite Hcalls3, Hcalls2, Hcalls1, <- !app_assoc.
  - by rewrite (news_app _ _ _ Hcalls3).
Qed.

End Publishing.

(** ** Deciding the hypotheses *)

Section Checks.

Lemma all_handlers_spec p tbl :
  all_handlers p tbl = true -> forall g, registered g tbl -> p g = true.
Proof.
  intros Hall g (i & s & Hs & Hin). unfold all_handlers in Hall.
  rewrite forallb_forall in Hall.
  apply list_elem_of_lookup_2, list_elem_of_In, Hall in Hs.
  rewrite forallb_forall in Hs. by apply list_elem_of_In, Hs in Hin.
Qed.

Lemma calm_check tbl :
  all_handlers (fun h => bool_decide (outcome (length tbl) h = Normal)) tbl = true ->
  calm tbl.
Proof.
  intros Hall h Hh. pose proof (all_handlers_spec _ _ Hall h Hh) as Hb.
  by apply bool_decide_eq_true in Hb.
Qed.

Lemma unregistered_check h tbl :
  all_handlers (fun g => bool_decide (g <> h)) tbl = true -> ~ registered h tbl.
Proof.
  intros Hall Hh. pose proof (all_handlers_spec _ _ Hall h Hh) as Hb.
  by apply bool_decide_eq_true in Hb.
Qed.

Lemma no_target_check f tbl :
  all_handlers (fun g => bool_decide (target g <> f)) tbl = true ->
  forall g, registered g tbl -> target g <> f.
Proof.
  intros Hall g Hg. pose proof (all_handlers_spec _ _ Hall g Hg) as Hb.
  by apply bool_decide_eq_true in Hb.
Qed.

Lemma listening_check h i tbl : listeningb h i tbl = true -> listening h i tbl.
Proof.
  unfold listeningb, listening. destruct (tbl !! i) as [s|]; [|done].
  cbn. intros Hhas. exists s. split; [done|]. by apply bool_decide_eq_true in Hhas.
Qed.

End Checks.

(** ** The claims on sample runs *)

Lemma on_then_emit_witness :
  table_ok (emitter_of 4) /\ calm (handlers (emitter_of 4))
  /\ ~ registered (Fn fnA) (handlers (emitter_of 4))
  /\ overlap 3 5 (Z.to_nat 4)
  /\ dispatches_to (Fn fnA)
       (news emitter_A (emit 5 7 None emitter_A).1) = [Dispatch (Fn fnA) 7 5].
Proof.
  assert (H1 : table_ok (emitter_of 4)) by reflexivity.
  assert (H2 : calm (handlers (emitter_of 4))) by (apply calm_check; reflexivity).
  assert (H3 : ~ registered (Fn fnA) (handlers (emitter_of 4)))
    by (apply unregistered_check; reflexivity).
  assert (H4 : overlap 3 5 (Z.to_nat 4)).
  { exists 0. split; [vm_compute; lia|]. split; reflexivity. }
  refine (conj H1 (conj H2 (conj H3 (conj H4 _)))).
  exact (proj1 (proj2 (on_then_emit 3 5 (Fn fnA) 7 (emitter_of 4) H1 H2 H3)) H4).
Defined.

Lemma on_then_emit_counterexample :
  new 4 = inl (emitter_of 4)
  /\ table_ok (emitter_of 4) /\ calm (handlers (emitter_of 4))
  /\ ~ registered (Fn fnA) (handlers (emitter_of 4))
  /\ JS.and 16 16 <> 0%Z
  /\ dispatches_to (Fn fnA)
       (news (on 16 (Fn fnA) None (emitter_of 4)).1
             (emit 16 7 None (on 16 (Fn fnA) None (emitter_of 4)).1).1) = []
  /\ ~ (Dispatch (Fn fnA) 7 16
          ∈ news (on 16 (Fn fnA) None (emitter_of 4)).1
                 (emit 16 7 None (on 16 (Fn fnA) None (emitter_of 4)).1).1
        <-> JS.and 16 16 <> 0%Z).
Proof.
  split; [reflexivity|]. split; [reflexivity|].
  split; [apply calm_check; reflexivity|].
  split; [apply unregistered_check; reflexivity|].
  split; [by vm_compute|]. split; [reflexivity|].
  intros [_ Hcalled]. assert (JS.and 16 16 <> 0%Z) as Hand by (by vm_compute).
  apply Hcalled in Hand. vm_compute in Hand. by apply elem_of_nil in Hand.
Qed.

Lemma emit_dedup_witness :
  emit 3 7 None emitter_A = ((emit 3 7 None emitter_A).1, Normal)
  /\ 0 < Z.to_nat (hint_or_default None emitter_A)
  /\ bit_set 3 0 = true /\ bit_set 3 1 = true
  /\ listening (Fn fnA) 0 (handlers emitter_A)
  /\ listening (Fn fnA) 1 (handlers emitter_A)
  /\ dispatches_to (Fn fnA) (news emitter_A (emit 3 7 None emitter_A).1)
     = [Dispatch (Fn fnA) 7 3].
Proof.
  assert (H1 : emit 3 7 None emitter_A = ((emit 3 7 None emitter_A).1, Normal))
    by (vm_compute; reflexivity).
  assert (H2 : 0 < Z.to_nat (hint_or_default None emitter_A)) by (vm_compute; lia).
  assert (H3 : bit_set 3 0 = true) by reflexivity.
  assert (H4 : listening (Fn fnA) 0 (handlers emitter_A))
    by (apply listening_check; reflexivity).
  assert (H5 : bit_set 3 1 = true) by reflexivity.
  assert (H6 : listening (Fn fnA) 1 (handlers emitter_A))
    by (apply listening_check; reflexivity).
  refine (conj H1 (conj H2 (conj H3 (conj H5 (conj H4 (conj H6 _)))))).
  exact (proj1 (emit_dedup 3 7 None emitter_A _ (Fn fnA) 0 H1 H2 H3 H4)).
Defined.

Lemma once_fires_once_witness :
  table_ok (emitter_of 32) /\ calm (handlers (emitter_of 32))
  /\ fn_throws fnA = false
  /\ (let e1 := (once 3 fnA None (emitter_of 32)).1 in
      let e2 := (emit 1 10 None e1).1 in
      let e3 := emits [(2%Z, 11, None); (2%Z, 12, None)] e2 in
      runs_of fnA (news e1 e3) = [Forward (OnceHandler 0 fnA 32) fnA 10 1]
      /\ ~ registered (OnceHandler 0 fnA 32) (handlers e2)).
Proof.
  assert (H1 : table_ok (emitter_of 32)) by reflexivity.
  assert (H2 : calm (handlers (emitter_of 32))) by (apply calm_check; reflexivity).
  assert (H3 : fn_throws fnA = false) by reflexivity.
  assert (H4 : forall g, registered g (handlers (emitter_of 32)) -> target g <> fnA)
    by (apply no_target_check; reflexivity).
  assert (H5 : Forall (fun x : Z * nat * option Z => forall j,
            j < Z.to_nat (maxBits (emitter_of 32)) ->
            bit_set 3 j = true -> bit_set x.1.1 j = false) []) by constructor.
  assert (H6 : 0 < Z.to_nat (hint_or_default None (emitter_of 32))) by (vm_compute; lia).
  assert (H7 : 0 < Z.to_nat (maxBits (emitter_of 32))) by (vm_compute; lia).
  assert (H8 : bit_set 3 0 = true) by reflexivity.
  assert (H9 : bit_set 1 0 = true) by reflexivity.
  pose proof (once_fires_once 3 fnA (emitter_of 32) [] 1 10 None 0
                [(2%Z, 11, None); (2%Z, 12, None)] H1 H2 H3 H4 H5 H6 H7 H8 H9) as Hw.
  refine (conj H1 (conj H2 (conj H3 (conj _ _)))).
  - exact (proj1 (proj2 Hw)).
  - exact (proj2 (proj2 (proj2 Hw))).
Defined.

Lemma remove_complete_witness :
  table_ok emitter_A
  /\ (remove (Fn fnA) None emitter_A).2 = Normal
  /\ dispatches_to (Fn fnA)
       (news (remove (Fn fnA) None emitter_A).1
             (emits [(3%Z, 7, None); (15%Z, 8, Some 2%Z)] (remove (Fn fnA) None emitter_A).1))
     = [].
Proof.
  assert (H1 : table_ok emitter_A) by reflexivity.
  pose proof (remove_complete (Fn fnA) emitter_A
                [(3%Z, 7, None); (15%Z, 8, Some 2%Z)] H1) as Hw.
  split; [assumption|]. split.
  - exact (proj1 Hw).
  - exact (proj1 (proj2 (proj2 (proj2 (proj2 Hw))))).
Defined.

Lemma on_range_counterexample :
  new 4 = inl (emitter_of 4) /\ (0 <= 16)%Z
  /\ (on 16 (Fn fnA) (Some 8%Z) (emitter_of 4)).2 = Throw TypeError
  /\ (on 16 (Fn fnA) (Some 8%Z) (emitter_of 4)).2 <> Normal.
Proof. split; [reflexivity|]. split; [lia|]. split; [reflexivity|by vm_compute]. Qed.



Lemma emit_fail_fast_witness :
  first_new [] (matching 7 0 (Z.to_nat (hint_or_default None emitter_ABadB))
                  (handlers emitter_ABadB))
    = [Fn fnA] ++ Fn fnBad :: [Fn fnB]
  /\ Forall (fun g => outcome (length (handlers emitter_ABadB)) g = Normal) [Fn fnA]
  /\ fn_throws (target (Fn fnBad)) = true
  /\ (emit 7 9 None emitter_ABadB).2 = Throw (Raised fnBad)
  /\ dispatches (news emitter_ABadB (emit 7 9 None emitter_ABadB).1)
     = [Dispatch (Fn fnA) 9 7; Dispatch (Fn fnBad) 9 7].
Proof.
  assert (H1 : first_new [] (matching 7 0 (Z.to_nat (hint_or_default None emitter_ABadB))
                  (handlers emitter_ABadB)) = [Fn fnA] ++ Fn fnBad :: [Fn fnB])
    by reflexivity.
  assert (H2 : Forall (fun g => outcome (length (handlers emitter_ABadB)) g = Normal)
                 [Fn fnA]) by (repeat constructor).
  assert (H3 : fn_throws (target (Fn fnBad)) = true) by reflexivity.
  pose proof (emit_fail_fast 7 9 None emitter_ABadB [Fn fnA] (Fn fnBad) [Fn fnB]
                H1 H2 H3) as Hw.
  refine (conj H1 (conj H2 (conj H3 (conj _ _)))).
  - exact (proj1 Hw).
  - exact (proj1 (proj2 Hw)).
Defined.

Lemma remove_hint_frame_witness :
  (2 < maxBits emitter_A6)%Z /\ table_ok emitter_A6
  /\ (let r := remove (Fn fnA) (Some 2%Z) emitter_A6 in
      r.2 = Normal
      /\ handlers r.1 !! 2 = handlers emitter_A6 !! 2
      /\ dispatches_to (Fn fnA) (news r.1 (emit 4 7 None r.1).1)
         = [Dispatch (Fn fnA) 7 4]).
Proof.
  assert (H1 : (2 < maxBits emitter_A6)%Z) by (vm_compute; reflexivity).
  assert (H2 : table_ok emitter_A6) by reflexivity.
  pose proof (remove_hint_frame (Fn fnA) 2 emitter_A6 H1 H2) as Hw.
  split; [assumption|]. split; [assumption|]. cbn zeta. split; [|split].
  - exact (proj1 Hw).
  - apply (proj1 (proj2 Hw)). vm_compute. lia.
  - apply (proj2 (proj2 Hw) 2).
    + vm_compute. lia.
    + apply listening_check. reflexivity.
    + reflexivity.
    + vm_compute. reflexivity.
Defined.

Lemma on_range_witness :
  (3 <= length (handlers (emitter_of 4)))
  /\ (on 22 (Fn fnA) (Some 3%Z) (emitter_of 4)).2 = Normal
  /\ on 6 (Fn fnA) (Some 3%Z) (emitter_of 4) = on 22 (Fn fnA) (Some 3%Z) (emitter_of 4).
Proof.
  assert (H1 : 3 <= length (handlers (emitter_of 4))) by (vm_compute; lia).
  pose proof (on_range 22 (Fn fnA) (Some 3%Z) (emitter_of 4)) as Hw.
  split; [assumption|]. split.
  - exact (proj1 (proj2 (proj2 Hw)) H1).
  - apply (proj2 (proj2 (proj2 (proj2 (proj2 Hw))))).
    intros k Hk. change (hint_or_default (Some 3%Z) (emitter_of 4)) with 3%Z in Hk.
    assert (k = 0 \/ k = 1 \/ k = 2)%Z as [-> | [-> | ->]] by lia; reflexivity.
Defined.

Lemma emit_order_witness :
  (emit 7 9 None emitter_A3B5).2 = Normal
  /\ dispatches (news emitter_A3B5 (emit 7 9 None emitter_A3B5).1)
     = [Dispatch (Fn fnA) 9 7; Dispatch (Fn fnB) 9 7].
Proof.
  assert (H1 : (emit 7 9 None emitter_A3B5).2 = Normal) by reflexivity.
  split; [assumption|].
  exact (proj1 (proj2 (emit_order 7 9 None emitter_A3B5)) H1).
Defined.

(** * Further properties *)

(** ** More on the bit test *)

Section MoreBits.
Local Open Scope Z_scope.

Lemma bit_set_zero i : bit_set 0 i = false.
Proof. rewrite bit_set_testbit. apply Z.bits_0. Qed.

Lemma bit_set_minus_one i : bit_set (-1) i = true.
Proof.
  rewrite bit_set_testbit. apply Z.bits_m1.
  apply Z.mod_pos_bound. lia.
Qed.

Lemma bit_set_ToInt32 code code2 i :
  JS.ToInt32 code = JS.ToInt32 code2 -> bit_set code i = bit_set code2 i.
Proof. intros Heq. unfold bit_set, JS.and. by rewrite Heq. Qed.

Lemma bit_set_or a b i : bit_set (JS.or a b) i = bit_set a i || bit_set b i.
Proof.
  rewrite !bit_set_testbit. unfold JS.or.
  pose proof (Z.mod_pos_bound (Z.of_nat i) 32 ltac:(lia)).
  rewrite Z.lor_spec, !ToInt32_testbit_low by lia. done.
Qed.

Lemma bit_set_period code i : bit_set code (i + 32) = bit_set code i.
Proof.
  rewrite <- (bit_set_mod code (i + 32)), <- (bit_set_mod code i). f_equal.
  replace (i + 32)%nat with (i + 1 * 32)%nat by lia.
  by rewrite Nat.Div0.mod_add.
Qed.

End MoreBits.

(** ** Codes at the edges *)

Section CodeEdges.
Context {T : Type}.
Implicit Types (e : BitFieldEmitter T) (d : T).

Lemma matching_ext code code2 bit n tbl :
  (forall i, bit <= i < bit + n -> bit_set code i = bit_set code2 i) ->
  matching code bit n tbl = matching code2 bit n tbl.
Proof.
  revert bit. unfold matching. induction n as [|n IH]; intros bit Hext; [done|].
  cbn [seq flat_map]. rewrite (Hext bit) by lia. f_equal. apply IH.
  intros i Hi. apply Hext. lia.
Qed.

Lemma matching_unset code bit n tbl :
  (forall i, bit <= i < bit + n -> bit_set code i = false) ->
  matching code bit n tbl = [].
Proof.
  revert bit. unfold matching. induction n as [|n IH]; intros bit Hext; [done|].
  cbn [seq flat_map]. rewrite (Hext bit) by lia. apply IH.
  intros i Hi. apply Hext. lia.
Qed.

Lemma past_end_unset p len bit n :
  (forall i, bit <= i < bit + n -> p i = false) -> past_end p len bit n = false.
Proof.
  intros Hp. apply not_true_iff_false. intros Hpe.
  apply past_end_true in Hpe as (j & Hj & _ & Htrue). by rewrite Hp in Htrue.
Qed.

(** X1: a code without set bits addresses nothing: [on(0, h, bitsHint)] and
    [emit(0, data, bitsHint)] return normally and leave the emitter as it
    was, for every [bitsHint], also one past the table. *)
Theorem zero_code_noop h d hint e :
  on 0 h hint e = (e, Normal) /\ emit 0 d hint e = (e, Normal).
Proof.
  split.
  - rewrite on_spec, past_end_unset by (intros; apply bit_set_zero).
    rewrite (update_range_ext _ (fun _ s => s)).
    + by rewrite update_range_id, with_handlers_id.
    + intros j s _. unfold on_slot. by rewrite bit_set_zero.
  - rewrite emit_spec, matching_unset by (intros; apply bit_set_zero).
    cbn. rewrite app_nil_r, emitter_eta.
    by rewrite past_end_unset by (intros; apply bit_set_zero).
Qed.

(** X2: only the low 32 bits of a code count: two codes with the same
    [ToInt32] register a handler identically, and published, reach the same
    handlers, leave the same table and complete the same way. *)
Theorem code_low_bits code code2 h d hint e :
  JS.ToInt32 code = JS.ToInt32 code2 ->
  on code2 h hint e = on code h hint e
  /\ attempted code2 hint e = attempted code hint e
  /\ handlers (emit code2 d hint e).1 = handlers (emit code d hint e).1
  /\ (emit code2 d hint e).2 = (emit code d hint e).2.
Proof.
  intros Heq.
  assert (Hbit : forall i, bit_set code2 i = bit_set code i)
    by (intros i; symmetry; by apply bit_set_ToInt32).
  assert (Hm : forall n, matching code2 0 n (handlers e) = matching code 0 n (handlers e))
    by (intros n; apply matching_ext; intros; apply Hbit).
  assert (Hatt : attempted code2 hint e = attempted code hint e)
    by (unfold attempted; by rewrite Hm).
  split; [|split; [done|split]].
  - rewrite !on_spec. f_equal.
    + f_equal. apply update_range_ext. intros j s _. unfold on_slot. by rewrite Hbit.
    + f_equal. apply past_end_ext. intros; apply Hbit.
  - by rewrite !emit_handlers, Hatt.
  - rewrite !emit_spec. cbn [snd]. rewrite Hm.
    rewrite (past_end_ext (bit_set code2) (bit_set code)) by (intros; apply Hbit).
    done.
Qed.

(** X3: the code [-1] addresses every slot: with the default [bitsHint],
    [on(-1, h)] makes [h] listen on every bit of the table, and on an
    emitter whose handlers return normally [emit(-1, data)] returns
    normally and calls every registered handler exactly once. *)
Theorem all_bits_code h g i d e :
  table_ok e -> i < length (handlers e) ->
  listening h i (handlers (on (-1) h None e).1)
  /\ (calm (handlers e) -> listening g i (handlers e) ->
      (emit (-1) d None e).2 = Normal
      /\ dispatches_to g (news e (emit (-1) d None e).1) = [Dispatch g d (-1)]).
Proof.
  intros Hok Hi. unfold table_ok in Hok. split.
  - rewrite on_spec. cbn [fst handlers with_handlers].
    apply listening_on. right. change (hint_or_default None e) with (maxBits e).
    split; [done|]. split; [lia|]. split; [done|]. apply bit_set_minus_one.
  - intros Hcalm Hl.
    assert (Hn : (emit (-1) d None e).2 = Normal).
    { rewrite emit_spec. cbn [snd]. rewrite deliver_all.
      - cbn [snd]. change (hint_or_default None e) with (maxBits e).
        by rewrite past_end_inside by lia.
      - apply list.Forall_forall. intros k Hk. apply Hcalm.
        apply first_new_elem in Hk as [Hk _].
        apply elem_of_matching in Hk as (j & _ & _ & Hj). by exists j. }
    split; [done|].
    apply (emit_normal_dispatches (-1) d None e (emit (-1) d None e).1 g i).
    + rewrite <- Hn. by destruct (emit (-1) d None e).
    + change (hint_or_default None e) with (maxBits e). lia.
    + apply bit_set_minus_one.
    + done.
Qed.

(** X4: registering one handler under two codes in turn is registering it
    under their bitwise or: the tables agree for every [bitsHint], and
    within the table both ways return normally. *)
Theorem on_twice_or c1 c2 h hint e :
  handlers (on c2 h hint (on c1 h hint e).1).1
    = handlers (on (JS.or c1 c2) h hint e).1
  /\ (Z.to_nat (hint_or_default hint e) <= length (handlers e) ->
      on c2 h hint (on c1 h hint e).1 = on (JS.or c1 c2) h hint e).
Proof.
  rewrite !on_spec. cbn [fst handlers with_handlers].
  rewrite hint_with_handlers, with_handlers_twice, update_range_length.
  assert (Htbl : update_range (on_slot c2 h) 0 (Z.to_nat (hint_or_default hint e))
      (update_range (on_slot c1 h) 0 (Z.to_nat (hint_or_default hint e)) (handlers e))
    = update_range (on_slot (JS.or c1 c2) h) 0 (Z.to_nat (hint_or_default hint e))
        (handlers e)).
  { rewrite update_range_compose. apply update_range_ext. intros j s _.
    unfold on_slot. rewrite bit_set_or.
    destruct (bit_set c1 j), (bit_set c2 j); cbn; try done. apply add_idemp. }
  split; [done|]. intros Hn. by rewrite Htbl, !past_end_inside by lia.
Qed.

End CodeEdges.

(** ** Unsubscribing *)

Section Removal.
Context {T : Type}.
Implicit Types (e : BitFieldEmitter T) (d : T).

Lemma delete_all_spec hs (s : hset) :
  delete_all hs s =
  (fun x => match x with
            | Some h => if decide (h ∈ hs) then None else x
            | None => None
            end) <$> s.
Proof.
  revert s. unfold delete_all. induction hs as [|h hs IH]; intros s; cbn [foldl].
  - rewrite <- (list_fmap_id s) at 1. apply list_fmap_ext.
    intros i [k|] _; [|done]. cbn. rewrite decide_False; [done|apply not_elem_of_nil].
  - rewrite IH. unfold HSet.delete. rewrite <- list_fmap_compose.
    apply list_fmap_ext. intros i [k|] _; cbn; [|done].
    destruct (decide (k = h)) as [->|Hne].
    + rewrite decide_True by done. rewrite decide_True by left. done.
    + rewrite decide_False by congruence.
      destruct (decide (k ∈ hs)) as [Hin|Hout].
      * rewrite decide_True by (by right). done.
      * rewrite decide_False; [done|]. rewrite not_elem_of_cons. done.
Qed.

Lemma delete_all_ext hs hs' (s : hset) :
  (forall h, h ∈ hs <-> h ∈ hs') -> delete_all hs s = delete_all hs' s.
Proof.
  intros Heq. rewrite !delete_all_spec. apply list_fmap_ext.
  intros i [k|] _; [|done].
  destruct (decide (k ∈ hs)) as [Hin|Hout].
  - rewrite decide_True by (by apply Heq). done.
  - rewrite decide_False; [done|]. by rewrite <- Heq.
Qed.

(** X5: [removeGroup] depends on its iterable only through the set of
    handlers that each walk over it yields: two iterables whose walks
    yield the same handlers, in any order and with any repetitions, leave
    the same emitter and complete alike, for every [bitsHint].  So do, in
    particular, two arrays or [Set]s with the same handlers. *)
Theorem removeGroup_same_handlers (it it' : iterable handler) hint e :
  (forall k h, h ∈ it k <-> h ∈ it' k) ->
  removeGroup it hint e = removeGroup it' hint e.
Proof.
  intros Heq. rewrite !removeGroup_spec. f_equal.
  - f_equal. apply update_range_ext. intros j s _. by apply delete_all_ext.
  - f_equal. apply past_end_ext. intros j _. specialize (Heq j).
    destruct (it j) as [|h hs], (it' j) as [|h' hs']; try done.
    + destruct (not_elem_of_nil h'). apply Heq. left.
    + destruct (not_elem_of_nil h). apply Heq. left.
Qed.

Lemma delete_idemp h (s : hset) : HSet.delete h (HSet.delete h s) = HSet.delete h s.
Proof.
  unfold HSet.delete. rewrite <- list_fmap_compose. apply list_fmap_ext.
  intros i x _. cbn. destruct (decide (x = Some h)); [done|].
  by rewrite decide_False.
Qed.

Lemma delete_comm g h (s : hset) :
  HSet.delete g (HSet.delete h s) = HSet.delete h (HSet.delete g s).
Proof.
  unfold HSet.delete. rewrite <- !list_fmap_compose. apply list_fmap_ext.
  intros i x _. cbn.
  destruct (decide (x = Some h)), (decide (x = Some g)); subst;
    repeat (rewrite ?decide_True by done; rewrite ?decide_False by done); done.
Qed.

(** X6: [remove(h, bitsHint)] is [removeGroup] of the array or [Set]
    holding [h] alone; a second [remove] of the same handler changes
    nothing more, and two removes leave the same table in either order;
    all for every [bitsHint]. *)
Theorem remove_algebra g h hint e :
  remove h hint e = removeGroup (collection [h]) hint e
  /\ remove h hint (remove h hint e).1 = remove h hint e
  /\ handlers (remove g hint (remove h hint e).1).1
     = handlers (remove h hint (remove g hint e).1).1.
Proof.
  rewrite !remove_spec, removeGroup_spec. cbn [fst handlers with_handlers].
  rewrite !hint_with_handlers, !with_handlers_twice, !update_range_length.
  rewrite !update_range_compose. split; [|split].
  - reflexivity.
  - f_equal. f_equal. apply update_range_ext. intros j s _. apply delete_idemp.
  - apply update_range_ext. intros j s _. apply delete_comm.
Qed.

Lemma past_end_unset_past p len bit n :
  (forall j, bit <= j < bit + n -> len <= j -> p j = false) ->
  past_end p len bit n = false.
Proof.
  intros Hp. apply not_true_iff_false. intros Hpe.
  apply past_end_true in Hpe as (j & Hj & Hlen & Htrue).
  by rewrite Hp in Htrue.
Qed.

(** X7: with a [bitsHint] past the end of the table, [remove] raises a
    [TypeError] whether or not the handler is registered, and has by then
    emptied it from every slot; [removeGroup] of an array or [Set] does so
    as soon as it holds a handler.  [removeGroup] of an iterable that can
    be walked only once returns normally on a table with a slot: it is
    spent before a missing slot is read.  On an empty array or [Set]
    [removeGroup] returns normally with the emitter untouched, whatever the
    [bitsHint]. *)
Theorem removal_past_table h hs (hint : Z) e :
  length (handlers e) < Z.to_nat hint ->
  (remove h (Some hint) e).2 = Throw TypeError
  /\ ~ registered h (handlers (remove h (Some hint) e).1)
  /\ (hs <> [] -> (removeGroup (collection hs) (Some hint) e).2 = Throw TypeError)
  /\ (0 < length (handlers e) ->
      (removeGroup (single_pass hs) (Some hint) e).2 = Normal)
  /\ (forall hint', removeGroup (collection []) hint' e = (e, Normal)).
Proof.
  intros Hn. rewrite remove_spec, !removeGroup_spec.
  change (hint_or_default (Some hint) e) with hint.
  cbn [fst snd handlers with_handlers].
  assert (Hpast : forall p, p (length (handlers e)) = true ->
            past_end p (length (handlers e)) 0 (Z.to_nat hint) = true).
  { intros p Hp. apply past_end_true. exists (length (handlers e)).
    split; [lia|]. split; [lia|done]. }
  split; [by rewrite Hpast|]. split; [|split; [|split]].
  - intros [i Hl]. assert (i < length (handlers e)).
    { destruct Hl as (s & Hs & _). apply lookup_lt_Some in Hs.
      by rewrite update_range_length in Hs. }
    eapply not_listening_removed; [|done]. lia.
  - intros Hne. rewrite Hpast; [done|]. by apply bool_decide_eq_true_2.
  - intros Hpos. rewrite past_end_unset_past; [done|].
    intros j Hj Hlen. destruct j as [|j]; [lia|].
    apply bool_decide_eq_false_2. by intros [].
  - intros hint'. rewrite removeGroup_spec.
    rewrite past_end_unset by (intros; by apply bool_decide_eq_false_2; intros []).
    rewrite (update_range_ext _ (fun _ s => s)) by done.
    by rewrite update_range_id, with_handlers_id.
Qed.

Lemma values_delete h (s : hset) :
  HSet.values (HSet.delete h s) = filter (fun g => g <> h) (HSet.values s).
Proof.
  induction s as [|[k|] s IH]; [done| |exact IH].
  change (HSet.delete h (Some k :: s))
    with ((if decide (Some k = Some h) then None else Some k) :: HSet.delete h s).
  rewrite values_cons. destruct (decide (k = h)) as [->|Hne].
  - rewrite decide_True by done. rewrite filter_cons_False by (intros Hn; by apply Hn).
    exact IH.
  - rewrite decide_False by congruence. rewrite filter_cons_True by done.
    rewrite values_cons. by f_equal.
Qed.

Lemma filter_ne_absent h (l : list handler) :
  h ∉ l -> filter (fun g => g <> h) l = l.
Proof.
  induction l as [|k l IH]; intros Hout; [done|].
  apply not_elem_of_cons in Hout as [Hne Hout].
  rewrite filter_cons_True by done. f_equal. by apply IH.
Qed.

Lemma slot_values_update_range f lo hi tbl i :
  slot_values (update_range f lo hi tbl) i =
  from_option (fun s => HSet.values (if bool_decide (lo <= i < hi) then f i s else s))
    [] (tbl !! i).
Proof.
  unfold slot_values. rewrite update_range_lookup. by destruct (tbl !! i).
Qed.

Lemma matching_slots code bit n tbl tbl' :
  (forall i, slot_values tbl i = slot_values tbl' i) ->
  matching code bit n tbl = matching code bit n tbl'.
Proof.
  intros Hext. revert bit. unfold matching.
  induction n as [|n IH]; intros bit; [done|].
  cbn [seq flat_map]. by rewrite Hext, IH.
Qed.

(** X8: subscribing a handler that was not registered and unsubscribing it
    again with the same [bitsHint] gives every slot back its handlers, in
    their order: any later publish then gets to call the same handlers as
    it would have before. *)
Theorem on_remove_round_trip code h hint e :
  ~ registered h (handlers e) ->
  let e' := (remove h hint (on code h hint e).1).1 in
  (forall i, slot_values (handlers e') i = slot_values (handlers e) i)
  /\ forall code' hint', attempted code' hint' e' = attempted code' hint' e.
Proof.
  intros Hfresh. cbn zeta. rewrite remove_spec, on_spec.
  cbn [fst handlers with_handlers]. rewrite hint_with_handlers, update_range_compose.
  set (tbl' := update_range _ _ _ _).
  assert (Hslots : forall i, slot_values tbl' i = slot_values (handlers e) i).
  { intros i. subst tbl'. rewrite slot_values_update_range. unfold slot_values.
    destruct (handlers e !! i) as [s|] eqn:Hs; [cbn|done].
    assert (Hout : h ∉ HSet.values s).
    { rewrite elem_of_values. intros Hin. apply Hfresh. by exists i, s. }
    case_bool_decide; [|done]. rewrite values_delete. unfold on_slot.
    destruct (bit_set code i); [|by apply filter_ne_absent].
    rewrite add_values.
    - rewrite list.filter_app, filter_ne_absent by done.
      rewrite filter_cons_False by (intros Hn; by apply Hn). by rewrite app_nil_r.
    - apply bool_decide_eq_false_2. by rewrite <- elem_of_values. }
  split; [done|]. intros code' hint'. unfold attempted.
  cbn [handlers with_handlers]. rewrite hint_with_handlers.
  subst tbl'. rewrite update_range_length.
  by rewrite (matching_slots _ _ _ _ (handlers e)).
Qed.

(** X9: a handler unsubscribed and subscribed again is put last: on every
    bit of the code within [bitsHint] and the table, the slot then lists
    its other handlers in their order, followed by the handler. *)
Theorem resubscribe_goes_last code h hint e i :
  i < Z.to_nat (hint_or_default hint e) -> i < length (handlers e) ->
  bit_set code i = true ->
  slot_values (handlers (on code h hint (remove h hint e).1).1) i
  = filter (fun g => g <> h) (slot_values (handlers e) i) ++ [h].
Proof.
  intros Hi Hlen Hbit. rewrite on_spec, remove_spec.
  cbn [fst handlers with_handlers]. rewrite hint_with_handlers, update_range_compose.
  rewrite slot_values_update_range. unfold slot_values.
  destruct (lookup_lt_is_Some_2 (handlers e) i Hlen) as [s ->]. cbn.
  rewrite bool_decide_eq_true_2 by lia. unfold on_slot. rewrite Hbit.
  rewrite add_values, values_delete; [done|].
  apply bool_decide_eq_false_2. intros Hin. by apply elem_of_delete in Hin as [_ ?].
Qed.

End Removal.

(** ** Publishing at the edges *)

Section MorePublishing.
Context {T : Type}.
Implicit Types (e : BitFieldEmitter T) (d : T).

(** X10: [emit] registers nothing and unregisters no handler it has not
    called: [maxBits], the closures and the length of the table stay, the
    calls made before are kept, a handler listening afterwards was
    listening before, and client functions and handlers not called stay
    where they were. *)
Theorem emit_frame code d hint e :
  let e' := (emit code d hint e).1 in
  maxBits e' = maxBits e /\ closures e' = closures e
  /\ length (handlers e') = length (handlers e)
  /\ calls e `prefix_of` calls e'
  /\ (forall g i, listening g i (handlers e') -> listening g i (handlers e))
  /\ (forall f i, listening (Fn f) i (handlers e) -> listening (Fn f) i (handlers e'))
  /\ (forall g i, g ∉ attempted code hint e ->
        listening g i (handlers e) -> listening g i (handlers e')).
Proof.
  cbn zeta. rewrite emit_handlers. rewrite emit_spec. cbn [fst maxBits closures calls].
  split; [done|]. split; [done|]. split; [apply after_calls_length|].
  split; [by eexists|]. split; [|split].
  - intros g i. apply listening_after_calls.
  - intros f i. apply listening_after_calls_fn.
  - intros g i. apply listening_after_calls_ne.
Qed.

Lemma deliver_stops len l1 a l2 x :
  Forall (fun g => outcome len g = Normal) l1 -> outcome len a = Throw x ->
  deliver len (l1 ++ a :: l2) = (l1 ++ [a], Throw x).
Proof.
  intros Hl1 Ha. rewrite deliver_app, deliver_all by done. cbn [deliver].
  by rewrite Ha.
Qed.

Lemma emit_stops_at code d hint e a x :
  a ∈ first_new [] (matching code 0 (Z.to_nat (hint_or_default hint e)) (handlers e)) ->
  (forall g, registered g (handlers e) -> g <> a ->
     outcome (length (handlers e)) g = Normal) ->
  outcome (length (handlers e)) a = Throw x ->
  (emit code d hint e).2 = Throw x /\ a ∈ attempted code hint e.
Proof.
  intros Hin Hothers Ha.
  pose proof (first_new_NoDup [] (matching code 0 (Z.to_nat (hint_or_default hint e)) (handlers e))) as Hnd.
  assert (Hreg : forall g, g ∈ first_new [] (matching code 0
              (Z.to_nat (hint_or_default hint e)) (handlers e)) ->
            registered g (handlers e)).
  { intros g Hg. apply first_new_elem in Hg as [Hg _].
    apply elem_of_matching in Hg as (j & _ & _ & Hl). by exists j. }
  unfold attempted. rewrite emit_spec. cbn [snd].
  destruct (list_elem_of_split _ _ Hin) as (l1 & l2 & Hsplit).
  rewrite Hsplit in Hnd, Hreg |- *.
  apply list.NoDup_app in Hnd as (_ & Hdisj & _).
  rewrite (deliver_stops _ l1 a l2 x); [| |done].
  - cbn [fst snd]. split; [done|]. apply elem_of_app. right. left.
  - apply list.Forall_forall. intros g Hg. apply Hothers.
    + apply Hreg. apply elem_of_app. by left.
    + intros ->. eapply Hdisj; [done|]. left.
Qed.

Lemma listening_after_calls_throwing c f hint0 j hs tbl :
  fn_throws f = true -> listening (OnceHandler c f hint0) j tbl ->
  listening (OnceHandler c f hint0) j (after_calls hs tbl).
Proof.
  intros Hf. revert tbl. induction hs as [|h hs IH]; intros tbl Hl; [done|].
  rewrite after_calls_cons. apply IH.
  destruct (decide (OnceHandler c f hint0 = h)) as [<-|Hne].
  - cbn [after_call]. by rewrite Hf.
  - by apply listening_after_call_ne.
Qed.

(** X11: a [onceHandler] whose function throws is not unsubscribed: on an
    emitter whose other handlers return normally and do not run [f], after
    [once(code, f)] with a throwing [f] a publish that reaches it completes
    with [f]'s throw, having run [f] once, and leaves the [onceHandler]
    listening as before; the next publish that reaches it runs [f] and
    throws again. *)
Theorem once_throwing_stays code f e c1 d1 hint1 i1 c2 d2 hint2 i2 :
  table_ok e -> calm (handlers e) -> fn_throws f = true ->
  (forall g, registered g (handlers e) -> target g <> f) ->
  i1 < Z.to_nat (hint_or_default hint1 e) -> i1 < Z.to_nat (maxBits e) ->
  bit_set code i1 = true -> bit_set c1 i1 = true ->
  i2 < Z.to_nat (hint_or_default hint2 e) -> i2 < Z.to_nat (maxBits e) ->
  bit_set code i2 = true -> bit_set c2 i2 = true ->
  let a := OnceHandler (closures e) f (maxBits e) in
  let e1 := (once code f None e).1 in
  let r1 := emit c1 d1 hint1 e1 in
  let r2 := emit c2 d2 hint2 r1.1 in
  r1.2 = Throw (Raised f)
  /\ runs_of f (news e1 r1.1) = [Forward a f d1 c1]
  /\ (forall j, listening a j (handlers r1.1) <-> listening a j (handlers e1))
  /\ r2.2 = Throw (Raised f)
  /\ runs_of f (news r1.1 r2.1) = [Forward a f d2 c2].
Proof.
  intros Hok Hcalm Hf Hnone Hi1 Hi1' Hb1 Hb1' Hi2 Hi2' Hb2 Hb2'. cbn zeta.
  set (a := OnceHandler (closures e) f (maxBits e)).
  (* what holds between publishes *)
  set (Inv := fun e' : BitFieldEmitter T =>
    maxBits e' = maxBits e /\ length (handlers e') = Z.to_nat (maxBits e)
    /\ (forall j, j < Z.to_nat (maxBits e) -> bit_set code j = true ->
          listening a j (handlers e'))
    /\ (forall g, registered g (handlers e') -> g <> a ->
          outcome (length (handlers e')) g = Normal /\ target g <> f)).
  assert (Hstep : forall e' c d hint i, Inv e' ->
            i < Z.to_nat (hint_or_default hint e) -> i < Z.to_nat (maxBits e) ->
            bit_set code i = true -> bit_set c i = true ->
            (emit c d hint e').2 = Throw (Raised f)
            /\ runs_of f (news e' (emit c d hint e').1) = [Forward a f d c]
            /\ (forall j, listening a j (handlers (emit c d hint e').1)
                          <-> listening a j (handlers e'))
            /\ Inv (emit c d hint e').1).
  { intros e' c d hint i (Hmax & Hlen & Hl & Hothers) Hi Hi' Hb Hb'.
    assert (Hplan : a ∈ first_new [] (matching c 0
              (Z.to_nat (hint_or_default hint e')) (handlers e'))).
    { apply first_new_elem. split; [|apply not_elem_of_nil].
      apply elem_of_matching. exists i. unfold hint_or_default in *.
      rewrite Hmax. split; [lia|]. split; [done|]. by apply Hl. }
    destruct (emit_stops_at c d hint e' a (Raised f) Hplan) as [Hthrow Hatt].
    { intros g Hg Hne. by apply Hothers. }
    { cbn [outcome a]. by rewrite Hf. }
    assert (Hsame : forall j, listening a j (handlers (emit c d hint e').1)
                              <-> listening a j (handlers e')).
    { intros j. rewrite emit_handlers. split.
      - apply listening_after_calls.
      - by apply listening_after_calls_throwing. }
    split; [done|]. split; [|split; [done|]].
    - rewrite emit_news. apply runs_of_events_once; [apply attempted_NoDup|done|].
      intros g Hg Ht. destruct (decide (g = a)) as [|Hne]; [done|].
      apply attempted_listening in Hg as (j & _ & _ & Hj).
      destruct (Hothers g) as [_ Hno]; [by exists j|done|done].
    - unfold Inv. rewrite emit_maxBits, emit_handlers, after_calls_length.
      split; [done|]. split; [done|]. split.
      + intros j Hj Hbj. rewrite <- (emit_handlers c d hint e').
        apply Hsame. by apply Hl.
      + intros g Hg Hne. apply Hothers; [|done]. by eapply registered_after_calls. }
  assert (Hinv1 : Inv (once code f None e).1).
  { unfold once. rewrite on_spec.
    change (hint_or_default None e) with (maxBits e).
    cbn [hint_or_default default handlers maxBits fst snd with_handlers].
    change (id (maxBits e)) with (maxBits e).
    unfold table_ok in Hok. unfold Inv. cbn [handlers maxBits with_handlers].
    rewrite update_range_length. split; [done|]. split; [done|]. split.
    - intros j Hj Hbj. apply listening_on. right.
      split; [done|]. split; [done|]. split; [lia|done].
    - intros g [j Hl] Hne. apply listening_on in Hl as [Hl|[-> _]]; [|done].
      split; [apply Hcalm; by exists j|apply Hnone; by exists j]. }
  destruct (Hstep _ c1 d1 hint1 i1 Hinv1 Hi1 Hi1' Hb1 Hb1') as (H1 & H2 & H3 & Hinv2).
  destruct (Hstep _ c2 d2 hint2 i2 Hinv2 Hi2 Hi2' Hb2 Hb2') as (H4 & H5 & _ & _).
  done.
Qed.

(** X12: a one-shot subscription whose [bitsHint] is past the table breaks
    the publish that fires it: on an emitter whose handlers return
    normally, after [once(code, f, bitsHint)] with a returning [f], a
    publish that reaches the [onceHandler] runs [f], then completes with
    the [TypeError] of the [remove] inside it; the [onceHandler] is left in
    no slot. *)
Theorem once_oversized_hint code f (hint0 : Z) e code' d hint i :
  table_ok e -> calm (handlers e) -> fn_throws f = false ->
  (maxBits e < hint0)%Z ->
  i < Z.to_nat (hint_or_default hint e) -> i < Z.to_nat (maxBits e) ->
  bit_set code i = true -> bit_set code' i = true ->
  let a := OnceHandler (closures e) f hint0 in
  let e1 := (once code f (Some hint0) e).1 in
  let r := emit code' d hint e1 in
  r.2 = Throw TypeError
  /\ Forward a f d code' ∈ news e1 r.1
  /\ ~ registered a (handlers r.1).
Proof.
  intros Hok Hcalm Hf Hhint Hi Hi' Hb Hb'. cbn zeta.
  set (a := OnceHandler (closures e) f hint0).
  unfold table_ok in Hok.
  set (e1 := (once code f (Some hint0) e).1).
  assert (Htbl1 : handlers e1 = update_range (on_slot code a) 0 (Z.to_nat hint0) (handlers e)).
  { subst e1. unfold once. by rewrite on_spec. }
  assert (Hmax1 : maxBits e1 = maxBits e) by done.
  assert (Hlen1 : length (handlers e1) = length (handlers e))
    by (by rewrite Htbl1, update_range_length).
  assert (Hplan : a ∈ first_new [] (matching code' 0
            (Z.to_nat (hint_or_default hint e1)) (handlers e1))).
  { apply first_new_elem. split; [|apply not_elem_of_nil].
    apply elem_of_matching. exists i. unfold hint_or_default in *.
    rewrite Hmax1. split; [lia|]. split; [done|].
    rewrite Htbl1. apply listening_on. right.
    split; [done|]. split; [lia|]. split; [lia|done]. }
  destruct (emit_stops_at code' d hint e1 a TypeError Hplan) as [Hthrow Hatt].
  { intros g [j Hl] Hne. rewrite Htbl1 in Hl.
    apply listening_on in Hl as [Hl|[-> _]]; [|done].
    rewrite Hlen1. apply Hcalm. by exists j. }
  { cbn [outcome a]. rewrite Hf.
    assert (past_end (fun _ => true) (length (handlers e1)) 0 (Z.to_nat hint0) = true) as ->; [|done].
    apply past_end_true. exists (length (handlers e1)).
    split; [lia|]. split; [lia|done]. }
  split; [done|]. split.
  - rewrite emit_news. apply list_elem_of_In, in_flat_map. exists a.
    split; [by apply list_elem_of_In|]. right. left. done.
  - rewrite emit_handlers. apply after_calls_unregisters; [done|lia|done].
Qed.

(** X13: with a [bitsHint] past the table, on an emitter whose handlers
    return normally, [emit] still calls every handler found on the set bits
    of the existing slots, once each and in order, and then raises a
    [TypeError] exactly when the code has a set bit at a missing slot. *)
Theorem emit_past_table code d hint e :
  calm (handlers e) ->
  let n := Z.to_nat (hint_or_default hint e) in
  let r := emit code d hint e in
  dispatches (news e r.1)
    = (fun h => Dispatch h d code) <$> first_new [] (matching code 0 n (handlers e))
  /\ (r.2 = Throw TypeError <->
        exists i, length (handlers e) <= i < n /\ bit_set code i = true)
  /\ (r.2 = Normal \/ r.2 = Throw TypeError).
Proof.
  intros Hcalm. cbn zeta.
  assert (Hd : deliver (length (handlers e)) (first_new [] (matching code 0
              (Z.to_nat (hint_or_default hint e)) (handlers e)))
           = (first_new [] (matching code 0 (Z.to_nat (hint_or_default hint e))
                (handlers e)), Normal)).
  { apply deliver_all, list.Forall_forall. intros g Hg. apply Hcalm.
    apply first_new_elem in Hg as [Hg _].
    apply elem_of_matching in Hg as (j & _ & _ & Hl). by exists j. }
  rewrite emit_news, dispatches_events. unfold attempted.
  rewrite emit_spec, Hd. cbn [fst snd]. split; [done|].
  destruct (past_end _ _ _ _) eqn:Hp; cbn [thrown_if].
  - split; [|by right]. split; [|done]. intros _.
    apply past_end_true in Hp as (j & Hj & Hlen & Hbit). exists j.
    split; [lia|done].
  - split; [|by left]. split; [done|]. intros (j & Hj & Hbit).
    apply not_true_iff_false in Hp. destruct Hp. apply past_end_true.
    exists j. split; [lia|]. split; [lia|done].
Qed.

End MorePublishing.

(** ** Construction and what every session keeps *)

Section SessionProps.
Context {T : Type}.
Implicit Types (e : BitFieldEmitter T) (d : T).

Lemma slot_values_replicate n i : slot_values (replicate n []) i = [].
Proof.
  unfold slot_values. destruct (replicate n [] !! i) as [s|] eqn:Hs; [|done].
  apply lookup_replicate in Hs as [-> _]. done.
Qed.

Lemma matching_empty code bit n tbl :
  (forall i, slot_values tbl i = []) -> matching code bit n tbl = [].
Proof.
  intros Hempty. revert bit. unfold matching.
  induction n as [|n IH]; intros bit; [done|].
  cbn [seq flat_map]. rewrite Hempty, IH. by destruct (bit_set code bit).
Qed.

(** X14: [new BitFieldEmitter(maxBits)] raises a [RangeError] unless
    [0 <= maxBits < 2^32]; otherwise it gives an emitter of [maxBits]
    slots with nothing registered, on which a publish of any code and
    [bitsHint] up to [maxBits] returns normally and changes nothing. *)
Theorem new_spec (m : Z) :
  ((0 <= m < 2 ^ 32)%Z ->
     exists e : BitFieldEmitter T,
       new m = inl e /\ maxBits e = m /\ table_ok e
       /\ (forall h, ~ registered h (handlers e))
       /\ forall code d (hint : Z), (hint <= m)%Z ->
            emit code d (Some hint) e = (e, Normal))
  /\ (~ (0 <= m < 2 ^ 32)%Z -> new (T:=T) m = inr RangeError).
Proof.
  unfold new. split; intros Hm.
  - rewrite bool_decide_eq_true_2 by done. eexists. split; [done|].
    cbn [maxBits handlers]. split; [done|].
    split; [unfold table_ok; cbn; by rewrite length_replicate|].
    split.
    + intros h [i Hl]. apply elem_of_slot_values in Hl.
      rewrite slot_values_replicate in Hl. by apply elem_of_nil in Hl.
    + intros code d hint Hhint. rewrite emit_spec.
      cbn [handlers maxBits closures calls].
      rewrite matching_empty by apply slot_values_replicate.
      cbn. rewrite past_end_inside; [done|]. rewrite length_replicate.
      change (hint_or_default (Some hint) _) with hint. lia.
  - by rewrite bool_decide_eq_false_2.
Qed.

Lemma registered_update_range g f lo hi tbl :
  (forall j (s : hset), Some g ∈ f j s -> Some g ∈ s) ->
  registered g (update_range f lo hi tbl) -> registered g tbl.
Proof.
  intros Hf [i Hl]. exists i.
  apply listening_update_range in Hl as (s & Hs & Hin). exists s.
  split; [done|]. case_bool_decide; [by eapply Hf|done].
Qed.

Lemma nodup_update_range f lo hi tbl :
  (forall j (s : hset), NoDup (HSet.values s) -> NoDup (HSet.values (f j s))) ->
  (forall i, NoDup (slot_values tbl i)) ->
  forall i, NoDup (slot_values (update_range f lo hi tbl) i).
Proof.
  intros Hf Hnd i. rewrite slot_values_update_range.
  specialize (Hnd i). unfold slot_values in Hnd.
  destruct (tbl !! i) as [s|]; cbn in *; [|constructor].
  case_bool_decide; [by apply Hf|done].
Qed.

Lemma nodup_add h (s : hset) :
  NoDup (HSet.values s) -> NoDup (HSet.values (HSet.add h s)).
Proof.
  intros Hnd. destruct (HSet.has h s) eqn:Hhas.
  - unfold HSet.add. by rewrite Hhas.
  - rewrite add_values by done. apply list.NoDup_app. split; [done|].
    split; [|apply NoDup_singleton].
    intros g Hg Hin. apply list_elem_of_singleton in Hin as ->.
    apply bool_decide_eq_false in Hhas. by apply Hhas, elem_of_values.
Qed.

Lemma nodup_delete h (s : hset) :
  NoDup (HSet.values s) -> NoDup (HSet.values (HSet.delete h s)).
Proof. intros Hnd. rewrite values_delete. by apply list.NoDup_filter. Qed.

Lemma nodup_delete_all hs (s : hset) :
  NoDup (HSet.values s) -> NoDup (HSet.values (delete_all hs s)).
Proof.
  revert s. unfold delete_all. induction hs as [|h hs IH]; intros s Hnd; [done|].
  cbn [foldl]. by apply IH, nodup_delete.
Qed.

Lemma elem_of_delete_all g hs (s : hset) :
  Some g ∈ delete_all hs s -> Some g ∈ s.
Proof.
  revert s. unfold delete_all. induction hs as [|h hs IH]; intros s Hin; [done|].
  cbn [foldl] in Hin. apply IH in Hin. by apply elem_of_delete in Hin as [? _].
Qed.

Lemma nodup_after_calls hs tbl :
  (forall i, NoDup (slot_values tbl i)) ->
  forall i, NoDup (slot_values (after_calls hs tbl) i).
Proof.
  revert tbl. induction hs as [|h hs IH]; intros tbl Hnd; [done|].
  rewrite after_calls_cons. apply IH.
  destruct h as [f|c f hint]; cbn [after_call]; [done|].
  destruct (fn_throws f); [done|].
  apply nodup_update_range; [|done]. intros _ s. apply nodup_delete.
Qed.

Lemma sound_perform c e : sound e -> sound (perform c e).1.
Proof.
  intros (Hok & Hnd & Hcl). unfold table_ok in Hok.
  destruct c as [code f hint|f hint|fs hint|code f hint|code d hint]; cbn [perform].
  - rewrite on_spec. unfold sound, table_ok. cbn [fst handlers maxBits closures with_handlers].
    rewrite update_range_length. split; [done|]. split.
    + apply nodup_update_range; [|done]. intros j s Hs. unfold on_slot.
      destruct (bit_set code j); [by apply nodup_add|done].
    + intros c g hint' Hr. apply (Hcl c g hint').
      eapply registered_update_range; [|done]. intros j s. unfold on_slot.
      destruct (bit_set code j); [|done]. rewrite elem_of_add.
      by intros [?|?].
  - rewrite remove_spec. unfold sound, table_ok. cbn [fst handlers maxBits closures with_handlers].
    rewrite update_range_length. split; [done|]. split.
    + apply nodup_update_range; [|done]. intros _ s. apply nodup_delete.
    + intros c g hint' Hr. apply (Hcl c g hint').
      eapply registered_update_range; [|done]. intros j s Hin.
      by apply elem_of_delete in Hin as [? _].
  - rewrite removeGroup_spec. unfold sound, table_ok. cbn [fst handlers maxBits closures with_handlers].
    rewrite update_range_length. split; [done|]. split.
    + apply nodup_update_range; [|done]. intros j s. apply nodup_delete_all.
    + intros c g hint' Hr. apply (Hcl c g hint').
      eapply registered_update_range; [|done]. intros j s. apply elem_of_delete_all.
  - unfold once. rewrite on_spec. unfold sound, table_ok.
    cbn [fst handlers maxBits closures with_handlers].
    rewrite update_range_length. split; [done|]. split.
    + apply nodup_update_range; [|done]. intros j s Hs. unfold on_slot.
      destruct (bit_set code j); [by apply nodup_add|done].
    + intros c g hint' [j Hl].
      apply listening_on in Hl as [Hl|[[= -> _ _] _]]; [|lia].
      assert (c < closures e); [|lia]. apply (Hcl c g hint'). by exists j.
  - unfold sound, table_ok. rewrite emit_handlers, emit_maxBits, after_calls_length.
    split; [done|]. split; [by apply nodup_after_calls|].
    rewrite emit_spec. cbn [fst closures]. intros c g hint' Hr.
    apply (Hcl c g hint'). by eapply registered_after_calls.
Qed.

Lemma maxBits_perform c e : maxBits (perform c e).1 = maxBits e.
Proof.
  destruct c; cbn [perform]; rewrite ?on_spec, ?remove_spec, ?removeGroup_spec,
    ?emit_maxBits; done.
Qed.

(** X15: whatever calls are made on a constructed emitter, with whatever
    codes, [bitsHint]s and completions, its table keeps its [maxBits]
    slots, no slot lists a handler twice, and the registered
    [onceHandler]s are closures allocated by earlier [once] calls; in such
    a state [on], [remove], [removeGroup] and [once] with the default
    [bitsHint] return normally. *)
Theorem session_sound (m : Z) (e0 : BitFieldEmitter T) (cs : list (call T)) :
  new m = inl e0 ->
  let e := session cs e0 in
  maxBits e = m /\ sound e
  /\ forall c, match c with
               | CallOn _ _ None | CallRemove _ None
               | CallRemoveGroup _ None | CallOnce _ _ None =>
                   (perform c e).2 = Normal
               | _ => True
               end.
Proof.
  intros Hnew. cbn zeta.
  assert (H0 : maxBits e0 = m /\ sound e0).
  { unfold new in Hnew. case_bool_decide; [|done]. injection Hnew as <-.
    split; [done|]. split; [unfold table_ok; cbn; by rewrite length_replicate|].
    cbn [handlers closures]. split.
    - intros i. rewrite slot_values_replicate. constructor.
    - intros c f hint [i Hl]. apply elem_of_slot_values in Hl.
      rewrite slot_values_replicate in Hl. by apply elem_of_nil in Hl. }
  clear Hnew. revert e0 H0. unfold session.
  induction cs as [|c cs IH]; intros e0 [Hmax Hsound].
  - cbn [foldl]. split; [done|]. split; [done|].
    destruct Hsound as (Hok & _). unfold table_ok in Hok.
    intros [code f [hint|]|f [hint|]|fs [hint|]|code f [hint|]|code d hint];
      cbn [perform]; try done.
    + rewrite on_spec. cbn [snd]. change (hint_or_default None e0) with (maxBits e0).
      by rewrite past_end_inside by lia.
    + rewrite remove_spec. cbn [snd]. change (hint_or_default None e0) with (maxBits e0).
      by rewrite past_end_inside by lia.
    + rewrite removeGroup_spec. cbn [snd].
      change (hint_or_default None e0) with (maxBits e0).
      by rewrite past_end_inside by lia.
    + unfold once. rewrite on_spec. cbn [snd handlers].
      change (hint_or_default None e0) with (maxBits e0).
      change (hint_or_default (Some (maxBits e0)) _) with (maxBits e0).
      by rewrite past_end_inside by lia.
  - cbn [foldl]. apply IH. split; [by rewrite maxBits_perform|by apply sound_perform].
Qed.

End SessionProps.

(** ** Two one-shot subscriptions *)

Section Twice.
Context {T : Type}.
Implicit Types (e : BitFieldEmitter T) (d : T).

Lemma runs_of_app f (l1 l2 : list (event T)) :
  runs_of f (l1 ++ l2) = runs_of f l1 ++ runs_of f l2.
Proof. apply list.filter_app. Qed.

Lemma runs_of_once_events d code f c h :
  runs_of f (events_of d code (OnceHandler c f h))
  = [Forward (OnceHandler c f h) f d code].
Proof.
  unfold runs_of, events_of. rewrite filter_cons_False by done.
  by rewrite filter_cons_True.
Qed.

Lemma runs_of_events_two d code hs f c1 h1 c2 h2 :
  NoDup hs ->
  OnceHandler c1 f h1 ∈ hs -> OnceHandler c2 f h2 ∈ hs ->
  OnceHandler c1 f h1 <> OnceHandler c2 f h2 ->
  (forall g, g ∈ hs -> target g = f ->
     g = OnceHandler c1 f h1 \/ g = OnceHandler c2 f h2) ->
  runs_of f (flat_map (events_of d code) hs)
  ≡ₚ [Forward (OnceHandler c1 f h1) f d code; Forward (OnceHandler c2 f h2) f d code].
Proof.
  intros Hnd Hin1 Hin2 Hne Honly.
  set (a1 := OnceHandler c1 f h1) in *. set (a2 := OnceHandler c2 f h2) in *.
  apply list_elem_of_split in Hin1 as (l1 & l2 & ->).
  apply list.NoDup_app in Hnd as (Hnd1 & Hdisj & Hnd2).
  apply list.NoDup_cons in Hnd2 as [Hout2 Hnd2].
  assert (Hout1 : a1 ∉ l1) by (intros Hin; eapply Hdisj; [done|left]).
  rewrite flat_map_app. cbn [flat_map]. rewrite !runs_of_app.
  rewrite (runs_of_once_events d code f c1 h1 : runs_of f (events_of d code a1) = _).
  apply elem_of_app in Hin2 as [Hin2|Hin2].
  - assert (a2 ∉ l2) by (intros Hin; eapply Hdisj; [done|by right]).
    rewrite (runs_of_events_once d code l1 f c2 h2 Hnd1 Hin2).
    + rewrite (runs_of_events_none d code l2).
      * cbn. apply Permutation_swap.
      * intros g Hg Ht. destruct (Honly g) as [->| ->]; try done.
        apply elem_of_app. right. by right.
    + intros g Hg Ht. destruct (Honly g) as [->| ->]; try done.
      apply elem_of_app. by left.
  - apply elem_of_cons in Hin2 as [Heq|Hin2]; [by destruct Hne|].
    assert (a2 ∉ l1) by (intros Hin; eapply Hdisj; [done|by right]).
    rewrite (runs_of_events_none d code l1).
    + rewrite (runs_of_events_once d code l2 f c2 h2 Hnd2 Hin2); [done|].
      intros g Hg Ht. destruct (Honly g) as [->| ->]; try done.
      apply elem_of_app. right. by right.
    + intros g Hg Ht. destruct (Honly g) as [->| ->]; try done.
      apply elem_of_app. by left.
Qed.

(** X16: what [emit] calls at most once is the [onceHandler], not the
    function it wraps: on an emitter whose handlers return normally and do
    not run [f], after [once(code, f)] twice with a returning [f] the
    first publish that shares a bit with [code] runs [f] twice, once
    through each [onceHandler], and leaves neither registered. *)
Theorem once_twice_runs_twice code f e code' d hint i :
  table_ok e -> calm (handlers e) -> fn_throws f = false ->
  (forall g, registered g (handlers e) -> target g <> f) ->
  i < Z.to_nat (hint_or_default hint e) -> i < Z.to_nat (maxBits e) ->
  bit_set code i = true -> bit_set code' i = true ->
  let a1 := OnceHandler (closures e) f (maxBits e) in
  let a2 := OnceHandler (S (closures e)) f (maxBits e) in
  let e2 := (once code f None (once code f None e).1).1 in
  let r := emit code' d hint e2 in
  r.2 = thrown_if (past_end (bit_set code') (length (handlers e)) 0
                     (Z.to_nat (hint_or_default hint e)))
  /\ runs_of f (news e2 r.1) ≡ₚ [Forward a1 f d code'; Forward a2 f d code']
  /\ ~ registered a1 (handlers r.1) /\ ~ registered a2 (handlers r.1).
Proof.
  intros Hok Hcalm Hf Hnone Hi Hi' Hb Hb'. cbn zeta.
  destruct (once_armed code f e Hok Hcalm Hf Hnone)
    as (_ & Hok1 & Hcalm1 & Honly1 & Hbits1).
  set (a1 := OnceHandler (closures e) f (maxBits e)) in *.
  set (e1 := (once code f None e).1) in *.
  assert (Hmax1 : maxBits e1 = maxBits e) by done.
  assert (Hcl1 : closures e1 = S (closures e)) by done.
  assert (Hlen : length (handlers e) = Z.to_nat (maxBits e)) by done.
  assert (Hlen1 : length (handlers e1) = Z.to_nat (maxBits e))
    by (unfold table_ok in Hok1; by rewrite Hok1, Hmax1).
  set (a2 := OnceHandler (S (closures e)) f (maxBits e)).
  set (e2 := (once code f None e1).1).
  assert (Htbl2 : handlers e2
    = update_range (on_slot code a2) 0 (length (handlers e1)) (handlers e1)).
  { subst e2. unfold once. rewrite on_spec.
    change (hint_or_default None e1) with (maxBits e1).
    cbn [fst handlers with_handlers hint_or_default default].
    change (id (maxBits e1)) with (maxBits e1).
    by rewrite Hcl1, Hmax1, Hlen1. }
  assert (Hmax2 : maxBits e2 = maxBits e) by done.
  assert (Hlen2 : length (handlers e2) = Z.to_nat (maxBits e))
    by (by rewrite Htbl2, update_range_length).
  assert (Hne : a1 <> a2) by (intros [= ?]; lia).
  assert (Hreg2 : forall g, registered g (handlers e2) ->
            g = a2 \/ registered g (handlers e1)).
  { intros g [j Hl]. rewrite Htbl2 in Hl.
    apply listening_on in Hl as [Hl|[-> _]]; [right; by exists j|by left]. }
  assert (Hcalm2 : calm (handlers e2)).
  { intros g Hg. rewrite Hlen2. destruct (Hreg2 g Hg) as [->|Hg1].
    - cbn [outcome a2]. by rewrite Hf, past_end_inside by lia.
    - rewrite <- Hlen1. by apply Hcalm1. }
  set (plan := first_new [] (matching code' 0 (Z.to_nat (hint_or_default hint e2))
                               (handlers e2))).
  assert (Hpreg : forall g, g ∈ plan -> registered g (handlers e2)).
  { intros g Hg. apply first_new_elem in Hg as [Hg _].
    apply elem_of_matching in Hg as (j & _ & _ & Hl). by exists j. }
  assert (Hatt : attempted code' hint e2 = plan).
  { unfold attempted. fold plan. rewrite deliver_all; [done|].
    apply list.Forall_forall. intros g Hg. by apply Hcalm2, Hpreg. }
  assert (Hl1 : listening a1 i (handlers e2)).
  { rewrite Htbl2. apply listening_on. left. apply Hbits1. split; [lia|done]. }
  assert (Hl2 : listening a2 i (handlers e2)).
  { rewrite Htbl2. apply listening_on. right.
    split; [done|]. split; [lia|]. split; [lia|done]. }
  assert (Hin : forall a, listening a i (handlers e2) -> a ∈ plan).
  { intros a Hl. apply first_new_elem. split; [|apply not_elem_of_nil].
    apply elem_of_matching. exists i. unfold hint_or_default in *.
    rewrite Hmax2. split; [lia|done]. }
  split; [|split; [|split]].
  - rewrite emit_spec. cbn [snd]. fold plan.
    rewrite deliver_all by (apply list.Forall_forall; intros g Hg; by apply Hcalm2, Hpreg).
    cbn [snd]. unfold hint_or_default. by rewrite Hmax2, Hlen2, Hlen.
  - rewrite emit_news, Hatt.
    apply runs_of_events_two; [apply first_new_NoDup|by apply Hin|by apply Hin|done|].
    intros g Hg Ht. destruct (Hreg2 g (Hpreg g Hg)) as [->|Hg1]; [by right|].
    left. by apply Honly1.
  - rewrite emit_handlers, Hatt.
    apply after_calls_unregisters; [done|lia|by apply Hin].
  - rewrite emit_handlers, Hatt.
    apply after_calls_unregisters; [done|lia|by apply Hin].
Qed.

(** X17: [emit(code, data, bitsHint)] looks at no slot from [bitsHint]
    up: a handler that listens on such bits only is not called, whatever
    the code. *)
Theorem emit_hint_scope code d hint e h :
  (forall i, listening h i (handlers e) ->
             Z.to_nat (hint_or_default hint e) <= i) ->
  dispatches_to h (news e (emit code d hint e).1) = [].
Proof.
  intros Hhigh. rewrite emit_news, dispatches_to_events by apply attempted_NoDup.
  rewrite decide_False; [done|]. intros Hin.
  apply attempted_listening in Hin as (i & Hi & _ & Hl).
  apply Hhigh in Hl. lia.
Qed.

End Twice.

(** ** Subscribing again and cancelling *)

Section Cancelling.
Context {T : Type}.
Implicit Types (e : BitFieldEmitter T) (d : T).

(** X18: subscribing a handler again on bits it already listens on changes
    nothing, its place in each slot included: when [h] listens on every
    bit of [code] below [bitsHint], [on(code, h, bitsHint)] leaves the
    table as it is. *)
Theorem on_already_listening code h hint e :
  (forall i, i < Z.to_nat (hint_or_default hint e) -> bit_set code i = true ->
             i < length (handlers e) -> listening h i (handlers e)) ->
  handlers (on code h hint e).1 = handlers e.
Proof.
  intros Hl. rewrite on_spec. cbn [fst handlers with_handlers].
  apply list_eq. intros j. rewrite update_range_lookup.
  destruct (handlers e !! j) as [s|] eqn:Hs; [cbn|done]. f_equal.
  case_bool_decide as Hj; [|done]. unfold on_slot.
  destruct (bit_set code j) eqn:Hbit; [|done].
  destruct (Hl j) as (s' & Hs' & Hin); [lia|done|by eapply lookup_lt_Some|].
  rewrite Hs in Hs'. injection Hs' as <-.
  unfold HSet.add, HSet.has. by rewrite bool_decide_eq_true_2.
Qed.

Lemma armed_remove_fn a code f hint e :
  a <> Fn f -> armed a code e -> armed a code (remove (Fn f) hint e).1.
Proof.
  intros Hne (Hok & Hcalm & Honly & Hbits). rewrite remove_spec.
  cbn [fst]. unfold armed, table_ok in *. cbn [handlers maxBits with_handlers].
  rewrite update_range_length.
  assert (Hsub : forall g, registered g (update_range (fun _ => HSet.delete (Fn f)) 0
             (Z.to_nat (hint_or_default hint e)) (handlers e)) ->
           registered g (handlers e)).
  { intros g [j Hl]. exists j. apply listening_update_range in Hl as (s & Hs & Hin).
    exists s. split; [done|]. case_bool_decide; [|done].
    by apply elem_of_delete in Hin as [? _]. }
  split; [done|]. split; [|split].
  - intros g Hg. rewrite update_range_length. by apply Hcalm, Hsub.
  - intros g Hg. by apply Honly, Hsub.
  - intros i. rewrite <- Hbits, listening_update_range. unfold listening. split.
    + intros (s & Hs & Hin). exists s. split; [done|].
      case_bool_decide; [|done]. by apply elem_of_delete in Hin as [? _].
    + intros (s & Hs & Hin). exists s. split; [done|].
      case_bool_decide; [|done]. by apply elem_of_delete.
Qed.

(** X19: [remove(f)] does not cancel [once(code, f)]: what is registered
    is the [onceHandler], not [f].  On an emitter whose handlers return
    normally and do not run [f], after [once(code, f)] and then
    [remove(f, bitsHint)], the first publish that shares a bit with [code]
    still runs [f], once. *)
Theorem once_survives_remove code f e hint' code' d hint i :
  table_ok e -> calm (handlers e) -> fn_throws f = false ->
  (forall g, registered g (handlers e) -> target g <> f) ->
  i < Z.to_nat (hint_or_default hint e) -> i < Z.to_nat (maxBits e) ->
  bit_set code i = true -> bit_set code' i = true ->
  let a := OnceHandler (closures e) f (maxBits e) in
  let e2 := (remove (Fn f) hint' (once code f None e).1).1 in
  runs_of f (news e2 (emit code' d hint e2).1) = [Forward a f d code'].
Proof.
  intros Hok Hcalm Hf Hnone Hi Hi' Hb Hb'. cbn zeta.
  destruct (once_armed code f e Hok Hcalm Hf Hnone) as [_ Harmed].
  apply (armed_remove_fn _ code f hint') in Harmed; [|done].
  set (e2 := (remove (Fn f) hint' (once code f None e).1).1) in *.
  assert (Hmax2 : maxBits e2 = maxBits e) by done.
  assert (Hlen2 : length (handlers e2) = Z.to_nat (maxBits e)).
  { destruct Harmed as [Hok2 _]. unfold table_ok in Hok2. by rewrite Hok2, Hmax2. }
  rewrite <- Hmax2 in Harmed.
  destruct (armed_firing_emit (closures e) f code code' d hint e2 i Harmed Hf)
    as (Hruns & _); [|lia|done|done|].
  { unfold hint_or_default in *. by rewrite Hmax2. }
  by rewrite Hmax2 in Hruns.
Qed.

End Cancelling.

(** ** Further sample runs *)

Lemma code_low_bits_witness :
  JS.ToInt32 1 = JS.ToInt32 (2 ^ 32 + 1)
  /\ on (2 ^ 32 + 1) (Fn fnA) None (emitter_of 4) = on 1 (Fn fnA) None (emitter_of 4)
  /\ attempted (2 ^ 32 + 1) None emitter_A = attempted 1 None emitter_A.
Proof.
  assert (H1 : JS.ToInt32 1 = JS.ToInt32 (2 ^ 32 + 1)) by reflexivity.
  split; [assumption|]. split.
  - exact (proj1 (code_low_bits 1 (2 ^ 32 + 1) (Fn fnA) 0 None (emitter_of 4) H1)).
  - exact (proj1 (proj2 (code_low_bits 1 (2 ^ 32 + 1) (Fn fnA) 0 None emitter_A H1))).
Defined.

Lemma all_bits_code_witness :
  table_ok emitter_A3B5 /\ 2 < length (handlers emitter_A3B5)
  /\ calm (handlers emitter_A3B5)
  /\ listening (Fn fnB) 2 (handlers emitter_A3B5)
  /\ listening (Fn fnA) 2 (handlers (on (-1) (Fn fnA) None emitter_A3B5).1)
  /\ dispatches_to (Fn fnB) (news emitter_A3B5 (emit (-1) 7 None emitter_A3B5).1)
     = [Dispatch (Fn fnB) 7 (-1)].
Proof.
  assert (H1 : table_ok emitter_A3B5) by reflexivity.
  assert (H2 : 2 < length (handlers emitter_A3B5)) by (vm_compute; lia).
  assert (H3 : calm (handlers emitter_A3B5)) by (apply calm_check; reflexivity).
  assert (H4 : listening (Fn fnB) 2 (handlers emitter_A3B5))
    by (apply listening_check; reflexivity).
  pose proof (all_bits_code (Fn fnA) (Fn fnB) 2 7 emitter_A3B5 H1 H2) as Hw.
  refine (conj H1 (conj H2 (conj H3 (conj H4 (conj _ _))))).
  - exact (proj1 Hw).
  - exact (proj2 (proj2 Hw H3 H4)).
Defined.

Lemma removeGroup_same_handlers_witness :
  (forall k h, h ∈ single_pass [Fn fnA; Fn fnB] k
               <-> h ∈ single_pass [Fn fnB; Fn fnA; Fn fnB] k)
  /\ removeGroup (single_pass [Fn fnA; Fn fnB]) None emitter_A3B5
     = removeGroup (single_pass [Fn fnB; Fn fnA; Fn fnB]) None emitter_A3B5.
Proof.
  assert (H1 : forall k h, h ∈ single_pass [Fn fnA; Fn fnB] k
                           <-> h ∈ single_pass [Fn fnB; Fn fnA; Fn fnB] k).
  { intros [|k] h; cbn [single_pass]; [|done].
    rewrite !elem_of_cons, !elem_of_nil. tauto. }
  split; [assumption|].
  exact (removeGroup_same_handlers _ _ None emitter_A3B5 H1).
Defined.

Lemma removal_past_table_witness :
  length (handlers emitter_AB) < Z.to_nat 2
  /\ (remove (Fn fnBad) (Some 2%Z) emitter_AB).2 = Throw TypeError
  /\ ~ registered (Fn fnA) (handlers (remove (Fn fnA) (Some 2%Z) emitter_AB).1)
  /\ (removeGroup (collection [Fn fnA]) (Some 2%Z) emitter_AB).2 = Throw TypeError
  /\ (removeGroup (single_pass [Fn fnA]) (Some 2%Z) emitter_AB).2 = Normal.
Proof.
  assert (H1 : length (handlers emitter_AB) < Z.to_nat 2) by (vm_compute; lia).
  assert (H2 : 0 < length (handlers emitter_AB)) by (vm_compute; lia).
  pose proof (removal_past_table (Fn fnA) [Fn fnA] 2 emitter_AB H1) as Hw.
  refine (conj H1 (conj _ (conj (proj1 (proj2 Hw)) (conj _ _)))).
  - exact (proj1 (removal_past_table (Fn fnBad) [] 2 emitter_AB H1)).
  - exact (proj1 (proj2 (proj2 Hw)) ltac:(discriminate)).
  - exact (proj1 (proj2 (proj2 (proj2 Hw))) H2).
Defined.

Lemma on_remove_round_trip_witness :
  ~ registered (Fn fnBad) (handlers emitter_A3B5)
  /\ attempted 7 None (remove (Fn fnBad) None (on 7 (Fn fnBad) None emitter_A3B5).1).1
     = attempted 7 None emitter_A3B5.
Proof.
  assert (H1 : ~ registered (Fn fnBad) (handlers emitter_A3B5))
    by (apply unregistered_check; reflexivity).
  split; [assumption|].
  exact (proj2 (on_remove_round_trip 7 (Fn fnBad) None emitter_A3B5 H1) 7%Z None).
Defined.

Lemma resubscribe_goes_last_witness :
  0 < Z.to_nat (hint_or_default None emitter_A3B5)
  /\ 0 < length (handlers emitter_A3B5) /\ bit_set 1 0 = true
  /\ slot_values (handlers emitter_A3B5) 0 = [Fn fnA; Fn fnB]
  /\ slot_values
       (handlers (on 1 (Fn fnA) None (remove (Fn fnA) None emitter_A3B5).1).1) 0
     = [Fn fnB; Fn fnA].
Proof.
  assert (H1 : 0 < Z.to_nat (hint_or_default None emitter_A3B5)) by (vm_compute; lia).
  assert (H2 : 0 < length (handlers emitter_A3B5)) by (vm_compute; lia).
  assert (H3 : bit_set 1 0 = true) by reflexivity.
  refine (conj H1 (conj H2 (conj H3 (conj eq_refl _)))).
  exact (resubscribe_goes_last 1 (Fn fnA) None emitter_A3B5 0 H1 H2 H3).
Defined.

Lemma once_throwing_stays_witness :
  let e1 := (once 3 fnBad None (emitter_of 4)).1 in
  let r1 := emit 1 10 None e1 in
  let r2 := emit 2 11 None r1.1 in
  table_ok (emitter_of 4) /\ calm (handlers (emitter_of 4))
  /\ fn_throws fnBad = true
  /\ r1.2 = Throw (Raised fnBad)
  /\ r2.2 = Throw (Raised fnBad)
  /\ runs_of fnBad (news r1.1 r2.1)
     = [Forward (OnceHandler 0 fnBad 4) fnBad 11 2].
Proof.
  cbn zeta.
  assert (H1 : table_ok (emitter_of 4)) by reflexivity.
  assert (H2 : calm (handlers (emitter_of 4))) by (apply calm_check; reflexivity).
  assert (H3 : fn_throws fnBad = true) by reflexivity.
  assert (H4 : forall g, registered g (handlers (emitter_of 4)) -> target g <> fnBad)
    by (apply no_target_check; reflexivity).
  assert (H5 : 0 < Z.to_nat (hint_or_default None (emitter_of 4))) by (vm_compute; lia).
  assert (H6 : 0 < Z.to_nat (maxBits (emitter_of 4))) by (vm_compute; lia).
  assert (H7 : 1 < Z.to_nat (hint_or_default None (emitter_of 4))) by (vm_compute; lia).
  assert (H8 : 1 < Z.to_nat (maxBits (emitter_of 4))) by (vm_compute; lia).
  pose proof (once_throwing_stays 3 fnBad (emitter_of 4) 1 10 None 0 2 11 None 1
                H1 H2 H3 H4 H5 H6 eq_refl eq_refl H7 H8 eq_refl eq_refl) as Hw.
  refine (conj H1 (conj H2 (conj H3 (conj _ (conj _ _))))).
  - exact (proj1 Hw).
  - exact (proj1 (proj2 (proj2 (proj2 Hw)))).
  - exact (proj2 (proj2 (proj2 (proj2 Hw)))).
Defined.

Lemma once_oversized_hint_witness :
  let e1 := (once 1 fnA (Some 8%Z) (emitter_of 4)).1 in
  table_ok (emitter_of 4) /\ calm (handlers (emitter_of 4))
  /\ fn_throws fnA = false /\ (maxBits (emitter_of 4) < 8)%Z
  /\ (once 1 fnA (Some 8%Z) (emitter_of 4)).2 = Normal
  /\ (emit 1 10 None e1).2 = Throw TypeError
  /\ Forward (OnceHandler 0 fnA 8) fnA 10 1 ∈ news e1 (emit 1 10 None e1).1.
Proof.
  cbn zeta.
  assert (H1 : table_ok (emitter_of 4)) by reflexivity.
  assert (H2 : calm (handlers (emitter_of 4))) by (apply calm_check; reflexivity).
  assert (H3 : fn_throws fnA = false) by reflexivity.
  assert (H4 : (maxBits (emitter_of 4) < 8)%Z) by (vm_compute; reflexivity).
  assert (H5 : 0 < Z.to_nat (hint_or_default None (emitter_of 4))) by (vm_compute; lia).
  assert (H6 : 0 < Z.to_nat (maxBits (emitter_of 4))) by (vm_compute; lia).
  pose proof (once_oversized_hint 1 fnA 8 (emitter_of 4) 1 10 None 0
                H1 H2 H3 H4 H5 H6 eq_refl eq_refl) as Hw.
  refine (conj H1 (conj H2 (conj H3 (conj H4 (conj eq_refl (conj _ _)))))).
  - exact (proj1 Hw).
  - exact (proj1 (proj2 Hw)).
Defined.

Lemma emit_past_table_witness :
  calm (handlers emitter_A)
  /\ dispatches (news emitter_A (emit 17 9 (Some 5%Z) emitter_A).1)
     = [Dispatch (Fn fnA) 9 17]
  /\ (emit 17 9 (Some 5%Z) emitter_A).2 = Throw TypeError.
Proof.
  assert (H1 : calm (handlers emitter_A)) by (apply calm_check; reflexivity).
  pose proof (emit_past_table 17 9 (Some 5%Z) emitter_A H1) as Hw.
  split; [assumption|]. split.
  - exact (proj1 Hw).
  - apply (proj1 (proj2 Hw)). exists 4. split; [vm_compute; lia|reflexivity].
Defined.

Lemma session_sound_witness :
  new 4 = inl (emitter_of 4)
  /\ sound (session [CallOn 3 fnA None; CallOnce 5 fnB (Some 9%Z);
                     CallEmit 7 1 None; CallRemove fnA (Some 2%Z)] (emitter_of 4)).
Proof.
  assert (H1 : new 4 = inl (emitter_of 4)) by reflexivity.
  split; [assumption|].
  exact (proj1 (proj2 (session_sound 4 (emitter_of 4)
    [CallOn 3 fnA None; CallOnce 5 fnB (Some 9%Z);
     CallEmit 7 1 None; CallRemove fnA (Some 2%Z)] H1))).
Defined.

Lemma once_twice_runs_twice_witness :
  let e2 := (once 3 fnA None (once 3 fnA None (emitter_of 4)).1).1 in
  table_ok (emitter_of 4) /\ calm (handlers (emitter_of 4))
  /\ fn_throws fnA = false
  /\ runs_of fnA (news e2 (emit 1 10 None e2).1)
     ≡ₚ [Forward (OnceHandler 0 fnA 4) fnA 10 1; Forward (OnceHandler 1 fnA 4) fnA 10 1].
Proof.
  cbn zeta.
  assert (H1 : table_ok (emitter_of 4)) by reflexivity.
  assert (H2 : calm (handlers (emitter_of 4))) by (apply calm_check; reflexivity).
  assert (H3 : fn_throws fnA = false) by reflexivity.
  assert (H4 : forall g, registered g (handlers (emitter_of 4)) -> target g <> fnA)
    by (apply no_target_check; reflexivity).
  assert (H5 : 0 < Z.to_nat (hint_or_default None (emitter_of 4))) by (vm_compute; lia).
  assert (H6 : 0 < Z.to_nat (maxBits (emitter_of 4))) by (vm_compute; lia).
  pose proof (once_twice_runs_twice 3 fnA (emitter_of 4) 1 10 None 0
                H1 H2 H3 H4 H5 H6 eq_refl eq_refl) as Hw.
  refine (conj H1 (conj H2 (conj H3 _))).
  exact (proj1 (proj2 Hw)).
Defined.

Lemma emit_hint_scope_witness :
  (forall i, listening (Fn fnA) i (handlers emitter_A6) ->
             Z.to_nat (hint_or_default (Some 1%Z) emitter_A6) <= i)
  /\ dispatches_to (Fn fnA) (news emitter_A6 (emit 7 9 (Some 1%Z) emitter_A6).1) = [].
Proof.
  assert (H1 : forall i, listening (Fn fnA) i (handlers emitter_A6) ->
                 Z.to_nat (hint_or_default (Some 1%Z) emitter_A6) <= i).
  { intros [|i] Hl; [|vm_compute; lia].
    destruct Hl as (s & Hs & Hin). vm_compute in Hs. injection Hs as <-.
    by apply elem_of_nil in Hin. }
  split; [assumption|].
  exact (emit_hint_scope 7 9 (Some 1%Z) emitter_A6 (Fn fnA) H1).
Defined.

Lemma on_already_listening_witness :
  (forall i, i < Z.to_nat (hint_or_default None emitter_A3B5) ->
             bit_set 1 i = true -> i < length (handlers emitter_A3B5) ->
             listening (Fn fnA) i (handlers emitter_A3B5))
  /\ handlers (on 1 (Fn fnA) None emitter_A3B5).1 = handlers emitter_A3B5.
Proof.
  assert (H1 : forall i, i < Z.to_nat (hint_or_default None emitter_A3B5) ->
             bit_set 1 i = true -> i < length (handlers emitter_A3B5) ->
             listening (Fn fnA) i (handlers emitter_A3B5)).
  { intros i Hi Hb _. destruct i as [|[|[|[|i]]]].
    - apply listening_check. reflexivity.
    - vm_compute in Hb. discriminate.
    - vm_compute in Hb. discriminate.
    - vm_compute in Hb. discriminate.
    - vm_compute in Hi. lia. }
  split; [assumption|].
  exact (on_already_listening 1 (Fn fnA) None emitter_A3B5 H1).
Defined.

Lemma once_survives_remove_witness :
  let e2 := (remove (Fn fnA) None (once 3 fnA None (emitter_of 4)).1).1 in
  table_ok (emitter_of 4) /\ calm (handlers (emitter_of 4))
  /\ fn_throws fnA = false
  /\ runs_of fnA (news e2 (emit 2 10 None e2).1)
     = [Forward (OnceHandler 0 fnA 4) fnA 10 2].
Proof.
  cbn zeta.
  assert (H1 : table_ok (emitter_of 4)) by reflexivity.
  assert (H2 : calm (handlers (emitter_of 4))) by (apply calm_check; reflexivity).
  assert (H3 : fn_throws fnA = false) by reflexivity.
  assert (H4 : forall g, registered g (handlers (emitter_of 4)) -> target g <> fnA)
    by (apply no_target_check; reflexivity).
  assert (H5 : 1 < Z.to_nat (hint_or_default None (emitter_of 4))) by (vm_compute; lia).
  assert (H6 : 1 < Z.to_nat (maxBits (emitter_of 4))) by (vm_compute; lia).
  refine (conj H1 (conj H2 (conj H3 _))).
  exact (once_survives_remove 3 fnA (emitter_of 4) None 2 10 None 1
           H1 H2 H3 H4 H5 H6 eq_refl eq_refl).
Defined.
